(** * SwAV training core (pl_bolts/models/self_supervised/swav/swav_module.py)

    A shallow embedding of the assignment engine (Sinkhorn-Knopp), the
    feature queue, the swapped-prediction loss, the prototype gradient
    gate and the learning-rate schedule of the [SwAV] lightning module.

    Tensors of floats are modelled over the real numbers [R]: a vector is
    a list of reals, a matrix is the list of its rows.  Rounding is not
    part of this model; [.float()], [.to(out)], [.clone()] and [.detach()]
    are identities on values.  What is proved over [R] holds of the
    [float32] computation up to rounding; where a statement needs exact
    equality of computed values this is said, and the assignment engine is
    given a second time over IEEE binary32 ([Rounded], [float32_arithmetic])
    to show what rounding does to it. *)

From Stdlib Require Import Ascii String DecimalString.
From Stdlib Require Import Reals Lra Lia List ZArith Bool Arith SpecFloat.
Import ListNotations.
Local Open Scope R_scope.

(** ** Tensors *)

Abbreviation vec := (list R).
Abbreviation mat := (list (list R)).

(** [Q.shape] of a two-dimensional tensor given as a non-empty list of rows. *)
Definition nrows (Q : mat) : nat := length Q.
Definition ncols (Q : mat) : nat := length (hd [] Q).
Definition shape (Q : mat) : nat * nat := (nrows Q, ncols Q).

(** Broadcasting binary operation on two vectors of the same length. *)
Definition map2 {A B C} (f : A -> B -> C) (u : list A) (v : list B) : list C :=
  map (fun p => f (fst p) (snd p)) (combine u v).

Definition vsum (v : vec) : R := fold_right Rplus 0 v.
Definition col (j : nat) (Q : mat) : vec := map (fun row => nth j row 0) Q.

(** [Q.t()] *)
Definition transpose (Q : mat) : mat := map (fun j => col j Q) (seq 0 (ncols Q)).

(** [torch.sum(Q)], [torch.sum(Q, dim=1)], [torch.sum(Q, dim=0)] *)
Definition sum_all (Q : mat) : R := vsum (map vsum Q).
Definition sum_dim1 (Q : mat) : vec := map vsum Q.
Definition sum_dim0 (Q : mat) : vec := map (fun j => vsum (col j Q)) (seq 0 (ncols Q)).

(** [torch.ones(n)] *)
Definition ones (n : nat) : vec := repeat 1 n.

(** [v / s], [u / v], [u + v] on vectors; [Q / s] on matrices. *)
Definition vdiv_scalar (v : vec) (s : R) : vec := map (fun x => x / s) v.
Definition vdiv (u v : vec) : vec := map2 Rdiv u v.
Definition vadd (u v : vec) : vec := map2 Rplus u v.
Definition mdiv_scalar (Q : mat) (s : R) : mat := map (fun row => vdiv_scalar row s) Q.

(** [Q * s.unsqueeze(1)]: row [i] is multiplied by [s[i]]. *)
Definition mul_unsqueeze1 (Q : mat) (s : vec) : mat :=
  map2 (fun row si => map (fun q => q * si) row) Q s.

(** [Q * s.unsqueeze(0)]: column [j] is multiplied by [s[j]]. *)
Definition mul_unsqueeze0 (Q : mat) (s : vec) : mat :=
  map (fun row => map2 Rmult row s) Q.

(** [Q / torch.sum(Q, dim=0, keepdim=True)] *)
Definition div_keepdim0 (Q : mat) (s : vec) : mat :=
  map (fun row => vdiv row s) Q.

(** ** The collective-reduction context

    [torch.distributed] is ambient state of the process.  [None] stands for
    [torch.distributed.is_initialized() = False].  When a process group is
    initialised, [all_reduce] replaces the local tensor by its sum with the
    contributions of the other workers, which are inputs of the local
    computation: [remote_sum_Q] for the total mass and [remote_u it] for the
    row marginals of iteration [it]. *)

Record process_group := {
  get_world_size : nat;
  remote_sum_Q : R;
  remote_u : nat -> vec
}.

Definition distributed := option process_group.

(** ** Assignment engine *)

Module Sinkhorn.

(** The loop of the commented-out, unsynchronised [sinkhorn]. *)
Fixpoint sinkhorn_iters (r c : vec) (nmb_iters : nat) (Q : mat) : mat :=
  match nmb_iters with
  | O => Q
  | S n =>
      let u := sum_dim1 Q in
      let Q := mul_unsqueeze1 Q (vdiv r u) in
      let Q := mul_unsqueeze0 Q (vdiv c (sum_dim0 Q)) in
      sinkhorn_iters r c n Q
  end.

Definition sinkhorn (Q : mat) (nmb_iters : nat) : mat :=
  let sum_Q := sum_all Q in
  let Q := mdiv_scalar Q sum_Q in
  let '(K, B) := shape Q in
  let r := vdiv_scalar (ones K) (INR K) in
  let c := vdiv_scalar (ones B) (INR B) in
  let Q := sinkhorn_iters r c nmb_iters Q in
  transpose (div_keepdim0 Q (sum_dim0 Q)).

(** The loop of [distributed_sinkhorn]; [it] is the loop variable. *)
Fixpoint distributed_iters (dist : distributed) (r c : vec)
    (it nmb_iters : nat) (Q : mat) : mat :=
  match nmb_iters with
  | O => Q
  | S n =>
      let u := sum_dim1 Q in
      let u := match dist with
               | Some g => vadd u (remote_u g it)
               | None => u
               end in
      let Q := mul_unsqueeze1 Q (vdiv r u) in
      let Q := mul_unsqueeze0 Q (vdiv c (sum_dim0 Q)) in
      distributed_iters dist r c (S it) n Q
  end.

Definition distributed_sinkhorn (dist : distributed) (Q : mat) (nmb_iters : nat) : mat :=
  let sum_Q := sum_all Q in
  let sum_Q := match dist with
               | Some g => sum_Q + remote_sum_Q g
               | None => sum_Q
               end in
  let Q := mdiv_scalar Q sum_Q in
  let '(K, B) := shape Q in
  let num_procs := 1%nat in
  let num_procs := match dist with
                   | Some g => get_world_size g
                   | None => num_procs
                   end in
  let r := vdiv_scalar (ones K) (INR K) in
  let c := vdiv_scalar (ones B) (INR (num_procs * B)) in
  let Q := distributed_iters dist r c 0 nmb_iters Q in
  transpose (div_keepdim0 Q (sum_dim0 Q)).

End Sinkhorn.

(** ** Shapes and positivity *)

Definition is_mat (K B : nat) (Q : mat) : Prop :=
  length Q = K /\ Forall (fun row => length row = B) Q.

Definition vpos (v : vec) : Prop := Forall (fun x => 0 < x) v.
Definition mpos (Q : mat) : Prop := Forall vpos Q.

(** A process group hands back row marginals of the local shape: [all_reduce]
    keeps the shape of its argument. *)
Definition dist_ok (K : nat) (dist : distributed) : Prop :=
  match dist with
  | None => True
  | Some g => forall it, length (remote_u g it) = K
  end.

(** [lam * Q] for a scalar [lam]. *)
Definition scalar_mul (lam : R) (Q : mat) : mat := map (map (fun q => lam * q)) Q.

(** ** Errors

    A Python exception (IndexError, shape mismatch, failed assertion,
    ZeroDivisionError, AttributeError) aborts the step: [None]. *)

Definition bind {A B} (m : option A) (k : A -> option B) : option B :=
  match m with
  | Some a => k a
  | None => None
  end.

Declare Scope step_scope.
Delimit Scope step_scope with step.
Notation "x <- m ;; k" := (bind m (fun x => k))
  (at level 61, m at next level, right associativity) : step_scope.
Notation "' p <- m ;; k" := (bind m (fun x => match x with p => k end))
  (at level 61, p pattern, m at next level, right associativity) : step_scope.
Local Open Scope step_scope.

(** ** Python slices on the first dimension *)

(** [l[a:b]] for [0 <= a], [0 <= b] *)
Definition py_slice {A} (a b : nat) (l : list A) : list A := firstn (b - a) (skipn a l).
(** [l[:-n]]; [l[:-0]] is [l[:0]], the empty slice *)
Definition slice_to_neg {A} (n : nat) (l : list A) : list A :=
  match n with
  | O => []
  | _ => firstn (length l - n) l
  end.
(** [l[-n:]]; [l[-0:]] is [l[0:]], the whole of [l] *)
Definition slice_from_neg {A} (n : nat) (l : list A) : list A :=
  match n with
  | O => l
  | _ => skipn (length l - n) l
  end.
(** [l[-1]] *)
Definition last_row {A} (l : list A) : option A := nth_error l (length l - 1).

(** The source of a slice assignment must have as many rows as the slice,
    or a single row, which is broadcast. *)
Definition broadcast_rows {A} (n : nat) (src : list A) : option (list A) :=
  if (length src =? n)%nat then Some src
  else match src with
       | [x] => Some (repeat x n)
       | _ => None
       end.

(** [dst[a:] = src] and [dst[:b] = src] *)
Definition assign_from {A} (a : nat) (dst src : list A) : option (list A) :=
  src' <- broadcast_rows (length (skipn a dst)) src ;;
  Some (firstn a dst ++ src').
Definition assign_to {A} (b : nat) (dst src : list A) : option (list A) :=
  src' <- broadcast_rows (length (firstn b dst)) src ;;
  Some (src' ++ skipn b dst).

(** [l[i] = x] for [i] in range *)
Fixpoint set_nth {A} (i : nat) (x : A) (l : list A) : list A :=
  match l, i with
  | [], _ => []
  | _ :: l', O => x :: l'
  | y :: l', S i' => y :: set_nth i' x l'
  end.

(** ** More tensor operations *)

Definition dot (u v : vec) : R := vsum (map2 Rmult u v).
(** [torch.mm(A, M)] *)
Definition mm (A M : mat) : mat :=
  map (fun a => map (fun j => dot a (col j M)) (seq 0 (ncols M))) A.
(** [torch.cat((A, M))] along dimension 0 *)
Definition cat (A M : mat) : mat := A ++ M.

Definition Req_bool (x y : R) : bool := if Req_dec_T x y then true else false.
(** [torch.all(v == 0)] *)
Definition all_zero (v : vec) : bool := forallb (fun x => Req_bool x 0) v.

(** [nn.functional.normalize(w, dim=1, p=2)], with its default [eps = 1e-12] *)
Definition norm2 (v : vec) : R := sqrt (vsum (map (fun x => x * x) v)).
Definition normalize (w : mat) : mat :=
  map (fun v => vdiv_scalar v (Rmax (norm2 v) (1 / 10 ^ 12))) w.

(** [torch.exp(out / epsilon)] *)
Definition exp_div (out : mat) (eps : R) : mat := map (map (fun x => exp (x / eps))) out.

(** [nn.Softmax(dim=1)] applied to [x / temperature] *)
Definition softmax_row (v : vec) : vec := vdiv_scalar (map exp v) (vsum (map exp v)).
Definition softmax (x : mat) : mat := map softmax_row x.
Definition mlog (p : mat) : mat := map (map ln) p.
Definition mmul (q p : mat) : mat := map2 (map2 Rmult) q p.
(** [torch.mean(v)] *)
Definition mean (v : vec) : R := vsum v / INR (length v).

(** ** The feature queue: lines 237-238 of [shared_step]

    [self.queue[i, bs:] = self.queue[i, :-bs].clone()]
    [self.queue[i, :bs] = embedding[crop_id * bs:(crop_id + 1) * bs]] *)

Definition fill_queue (slot : mat) (bs : nat) (emb : mat) : option mat :=
  slot1 <- assign_from bs slot (slice_to_neg bs slot) ;;
  assign_to bs slot1 emb.

(** A run of insertions into one slot, oldest batch first. *)
Fixpoint fill_queue_many (slot : mat) (bs : nat) (embs : list mat) : option mat :=
  match embs with
  | [] => Some slot
  | emb :: rest => slot' <- fill_queue slot bs emb ;; fill_queue_many slot' bs rest
  end.

(** ** The module

    [hparams] gathers the configuration attributes the hooks read.
    [num_nodes] is the attribute [self.num_nodes] that [on_train_epoch_start]
    reads: [__init__] takes a [num_nodes] argument but stores it only through
    [save_hyperparameters()], so the attribute is [None] (reading it raises
    AttributeError) unless the base class or a subclass provides it. *)

Record hparams := {
  num_nodes : option nat;
  feat_dim : nat;
  warmup_epochs : Z;
  max_epochs : Z;
  freeze_prototypes_epochs : Z;
  temperature : R;
  sinkhorn_iterations : nat;
  queue_length : nat;
  epoch_queue_starts : Z;
  crops_for_assign : list nat;
  nmb_crops : list nat;
  start_lr : R;
  learning_rate : R;
  final_lr : R;
  epsilon : R
}.

(** What the module reads from [self.trainer]. *)
Record trainer := {
  num_training_batches : Z;
  current_epoch : Z;
  global_step : nat;
  gpus : nat
}.

(** The mutable attributes of the module.  [use_the_queue] and
    [lr_schedule] are not assigned by [__init__]: [None] is the missing
    attribute.  [named_grads] lists [self.model.named_parameters()] with the
    [.grad] of each parameter. *)
Record swav := {
  prototypes_weight : mat;
  queue : option (list mat);
  use_the_queue : option bool;
  lr_schedule : option vec;
  named_grads : list (String.string * option mat)
}.

Definition set_prototypes_weight (w : mat) (st : swav) : swav :=
  {| prototypes_weight := w; queue := queue st; use_the_queue := use_the_queue st;
     lr_schedule := lr_schedule st; named_grads := named_grads st |}.
Definition set_queue (q : option (list mat)) (st : swav) : swav :=
  {| prototypes_weight := prototypes_weight st; queue := q;
     use_the_queue := use_the_queue st; lr_schedule := lr_schedule st;
     named_grads := named_grads st |}.
Definition set_use_the_queue (b : bool) (st : swav) : swav :=
  {| prototypes_weight := prototypes_weight st; queue := queue st;
     use_the_queue := Some b; lr_schedule := lr_schedule st;
     named_grads := named_grads st |}.
Definition set_lr_schedule (s : vec) (st : swav) : swav :=
  {| prototypes_weight := prototypes_weight st; queue := queue st;
     use_the_queue := use_the_queue st; lr_schedule := Some s;
     named_grads := named_grads st |}.
Definition set_named_grads (g : list (String.string * option mat)) (st : swav) : swav :=
  {| prototypes_weight := prototypes_weight st; queue := queue st;
     use_the_queue := use_the_queue st; lr_schedule := lr_schedule st;
     named_grads := g |}.

(** The in-use latch of the queue is set. *)
Definition latched (st : swav) : Prop := use_the_queue st = Some true.

(** ** Learning-rate schedule *)

(** [np.linspace(start, stop, num)]; a negative [num] raises ValueError. *)
Definition linspace (start stop : R) (num : Z) : option vec :=
  if (num <? 0)%Z then None
  else Some (map (fun i => start + INR i * ((stop - start) / IZR (num - 1)))
                 (seq 0 (Z.to_nat num))).

(** [np.arange(n)]; empty when [n <= 0]. *)
Definition arange (n : Z) : list nat := seq 0 (Z.to_nat n).

Definition cosine_lr (hp : hparams) (tr : trainer) (t : nat) : R :=
  final_lr hp + 5 / 10 * (learning_rate hp - final_lr hp) *
    (1 + cos (PI * INR t /
              IZR (num_training_batches tr * (max_epochs hp - warmup_epochs hp)))).

Definition init_lr_schedule (hp : hparams) (tr : trainer) : option vec :=
  warmup_lr_schedule <-
    linspace (start_lr hp) (learning_rate hp)
             (num_training_batches tr * warmup_epochs hp) ;;
  let iters := arange (num_training_batches tr * (max_epochs hp - warmup_epochs hp)) in
  let cosine_lr_schedule := map (cosine_lr hp tr) iters in
  Some (warmup_lr_schedule ++ cosine_lr_schedule).

(** ** Epoch hooks *)

(** [torch.zeros(a, b, c)] *)
Definition zeros3 (a b c : nat) : list mat := repeat (repeat (repeat 0 c) b) a.

Definition on_train_epoch_start (hp : hparams) (tr : trainer) (st : swav) : option swav :=
  sched <- init_lr_schedule hp tr ;;
  let st := set_lr_schedule sched st in
  st <- (if (0 <? queue_length hp)%nat then
           nodes <- num_nodes hp ;;
           let num_devices := (gpus tr * nodes)%nat in
           if (epoch_queue_starts hp <=? current_epoch tr)%Z then
             match queue st with
             | None =>
                 if (num_devices =? 0)%nat then None
                 else Some (set_queue
                              (Some (zeros3 (length (crops_for_assign hp))
                                            (queue_length hp / num_devices)
                                            (feat_dim hp))) st)
             | Some _ => Some st
             end
           else Some st
         else Some st) ;;
  Some (set_use_the_queue false st).

(** [on_train_epoch_end] writes the queue to its file and leaves the module
    unchanged. *)
Definition on_train_epoch_end (st : swav) : swav := st.

(** ["prototypes" in name] *)
Definition str_in (sub name : String.string) : bool :=
  match String.index 0 sub name with
  | Some _ => true
  | None => false
  end.

Definition on_after_backward (hp : hparams) (tr : trainer) (st : swav) : swav :=
  if (current_epoch tr <? freeze_prototypes_epochs hp)%Z then
    set_named_grads
      (map (fun np => if str_in "prototypes"%string (fst np) then (fst np, None) else np)
           (named_grads st)) st
  else st.

(** ** The training and validation steps *)

(** [np.sum(self.nmb_crops)] *)
Definition total_crops (hp : hparams) : nat := fold_right Nat.add 0%nat (nmb_crops hp).

(** [np.delete(arr, i)]; an index out of bounds raises IndexError. *)
Definition np_delete {A} (arr : list A) (i : nat) : option (list A) :=
  if (i <? length arr)%nat then Some (firstn i arr ++ skipn (S i) arr) else None.

Section Steps.

(** [self.model(inputs)]: the backbone with its projection and prototype
    heads lives outside this file; it is a function of the prototype weights
    and of the input crops that returns [(embedding, output)]. *)
Variable model : mat -> list mat -> mat * mat.

(** The state of [torch.distributed] while the step runs. *)
Variable dist : distributed.

(** [self.get_assignments = self.distributed_sinkhorn] *)
Definition get_assignments (Q : mat) (nmb_iters : nat) : mat :=
  Sinkhorn.distributed_sinkhorn dist Q nmb_iters.

(** Step 4 of [shared_step] for the [i]-th assignment crop: consult the
    queue, then fill it.  Returns the rows handed to the assignment engine. *)
Definition use_queue_block (st : swav) (i crop_id bs : nat) (embedding out : mat)
    : option (mat * swav) :=
  match queue st with
  | None => Some (out, st)
  | Some qu =>
      use <- use_the_queue st ;;
      in_use <- (if use then Some true
                 else slot <- nth_error qu i ;;
                      last <- last_row slot ;;
                      Some (negb (all_zero last))) ;;
      ' (out, st) <- (if in_use then
                        slot <- nth_error qu i ;;
                        Some (cat (mm slot (transpose (prototypes_weight st))) out,
                              set_use_the_queue true st)
                      else Some (out, st)) ;;
      slot <- nth_error qu i ;;
      slot' <- fill_queue slot bs
                 (py_slice (crop_id * bs) ((crop_id + 1) * bs) embedding) ;;
      Some (out, set_queue (Some (set_nth i slot' qu)) st)
  end.

(** Steps 4 and 5: the [torch.no_grad()] block of one assignment crop. *)
Definition assignment_block (hp : hparams) (st : swav) (i crop_id bs : nat)
    (embedding output : mat) : option (mat * swav) :=
  let out := py_slice (bs * crop_id) (bs * (crop_id + 1)) output in
  ' (out, st) <- use_queue_block st i crop_id bs embedding out ;;
  let q := transpose (exp_div out (epsilon hp)) in
  let q := slice_from_neg bs (get_assignments q (sinkhorn_iterations hp)) in
  Some (q, st).

(** [torch.mean(torch.sum(q * torch.log(p), dim=1))] for crop [v], behind the
    assertion on the number of rows. *)
Definition prediction_term (hp : hparams) (q output : mat) (bs v : nat) : option R :=
  let p := softmax (mdiv_scalar (py_slice (bs * v) (bs * (v + 1)) output)
                                (temperature hp)) in
  if (length q =? length p)%nat
  then Some (mean (sum_dim1 (mmul q (mlog p))))
  else None.

Fixpoint subloss_loop (hp : hparams) (q output : mat) (bs : nat) (vs : list nat)
    (subloss : R) : option R :=
  match vs with
  | [] => Some subloss
  | v :: vs' =>
      t <- prediction_term hp q output bs v ;;
      subloss_loop hp q output bs vs' (subloss - t)
  end.

(** The loop over [enumerate(self.crops_for_assign)], from index [i] on. *)
Fixpoint crops_loop (hp : hparams) (embedding output : mat) (bs : nat)
    (crops : list nat) (i : nat) (loss : R) (st : swav) : option (R * swav) :=
  match crops with
  | [] => Some (loss, st)
  | crop_id :: rest =>
      ' (q, st) <- assignment_block hp st i crop_id bs embedding output ;;
      vs <- np_delete (arange (Z.of_nat (total_crops hp))) crop_id ;;
      subloss <- subloss_loop hp q output bs vs 0 ;;
      crops_loop hp embedding output bs rest (S i)
        (loss + subloss / IZR (Z.of_nat (total_crops hp) - 1)) st
  end.

(** [batch] is the list of crops of the batch, still with the trailing
    online-evaluation view that [inputs[:-1]] removes. *)
Definition shared_step (hp : hparams) (st : swav) (batch : list mat) : option (R * swav) :=
  let inputs := removelast batch in
  let st := set_prototypes_weight (normalize (prototypes_weight st)) st in
  let '(embedding, output) := model (prototypes_weight st) inputs in
  x0 <- hd_error inputs ;;
  let bs := length x0 in
  ' (loss, st) <- crops_loop hp embedding output bs (crops_for_assign hp) 0 0 st ;;
  if (length (crops_for_assign hp) =? 0)%nat then None
  else Some (loss / INR (length (crops_for_assign hp)), st).

Definition training_step (hp : hparams) (tr : trainer) (st : swav) (batch : list mat)
    : option (R * swav) :=
  ' (loss, st) <- shared_step hp st batch ;;
  sched <- lr_schedule st ;;
  _ <- nth_error sched (global_step tr) ;;
  Some (loss, st).

Definition validation_step (hp : hparams) (st : swav) (batch : list mat)
    : option (R * swav) :=
  shared_step hp st batch.

(** The hooks the trainer calls on the module, and a run of them. *)
Inductive hook :=
| OnTrainEpochStart (tr : trainer)
| TrainingStep (tr : trainer) (batch : list mat)
| OnAfterBackward (tr : trainer)
| ValidationStep (batch : list mat)
| OnTrainEpochEnd.

Definition run_hook (hp : hparams) (st : swav) (h : hook) : option swav :=
  match h with
  | OnTrainEpochStart tr => on_train_epoch_start hp tr st
  | TrainingStep tr batch => ' (_, st) <- training_step hp tr st batch ;; Some st
  | OnAfterBackward tr => Some (on_after_backward hp tr st)
  | ValidationStep batch => ' (_, st) <- validation_step hp st batch ;; Some st
  | OnTrainEpochEnd => Some (on_train_epoch_end st)
  end.

Fixpoint run_hooks (hp : hparams) (st : swav) (hs : list hook) : option swav :=
  match hs with
  | [] => Some st
  | h :: hs' => st' <- run_hook hp st h ;; run_hooks hp st' hs'
  end.


End Steps.

(** ** The loss as the specification words it

    These definitions follow the specification, not the code: for an
    assignment crop with soft targets [q], every other crop [v] of the full
    crop set contributes the negative mean over samples of the sum over the
    cluster dimension of [q ⊙ log softmax(logits_v / temperature)]; the sum
    is divided by the number of crops minus one; the loss is the average over
    the assignment crops. *)

Definition spec_cross_entropy (hp : hparams) (q output : mat) (bs v : nat) : R :=
  - mean (sum_dim1 (mmul q (mlog (softmax (mdiv_scalar
              (py_slice (bs * v) (bs * (v + 1)) output) (temperature hp)))))).

Definition spec_subloss (hp : hparams) (output : mat) (bs crop_id : nat) (q : mat) : R :=
  vsum (map (spec_cross_entropy hp q output bs)
            (filter (fun v => negb (v =? crop_id)%nat) (seq 0 (total_crops hp))))
  / (INR (total_crops hp) - 1).

Definition spec_loss (hp : hparams) (output : mat) (bs : nat) (qs : list mat) : R :=
  vsum (map2 (spec_subloss hp output bs) (crops_for_assign hp) qs)
  / INR (length (crops_for_assign hp)).

(** The soft targets of a step: the [torch.no_grad()] blocks of the loop over
    the assignment crops, run one after the other on the module. *)
Fixpoint assignment_pass (dist : distributed) (hp : hparams) (embedding output : mat)
    (bs : nat) (crops : list nat) (i : nat) (st : swav) : option (list mat * swav) :=
  match crops with
  | [] => Some ([], st)
  | crop_id :: rest =>
      ' (q, st) <- assignment_block dist hp st i crop_id bs embedding output ;;
      ' (qs, st) <- assignment_pass dist hp embedding output bs rest (S i) st ;;
      Some (q :: qs, st)
  end.

(** ** A small configuration used to run the definitions

    Two prototypes in a two-dimensional feature space, two crops of one
    sample each, one assignment crop, a queue of one row per slot. *)

Definition example_hp : hparams :=
  {| num_nodes := None; feat_dim := 2; warmup_epochs := 1; max_epochs := 3;
     freeze_prototypes_epochs := 1; temperature := 1; sinkhorn_iterations := 1;
     queue_length := 1; epoch_queue_starts := 0; crops_for_assign := [0%nat];
     nmb_crops := [2%nat]; start_lr := 0; learning_rate := 1; final_lr := 0;
     epsilon := 1 |}.

(** The same configuration with the queue disabled ([queue_length = 0]). *)
Definition example_hp_no_queue : hparams :=
  {| num_nodes := None; feat_dim := 2; warmup_epochs := 1; max_epochs := 3;
     freeze_prototypes_epochs := 1; temperature := 1; sinkhorn_iterations := 1;
     queue_length := 0; epoch_queue_starts := 0; crops_for_assign := [0%nat];
     nmb_crops := [2%nat]; start_lr := 0; learning_rate := 1; final_lr := 0;
     epsilon := 1 |}.

Definition example_trainer : trainer :=
  {| num_training_batches := 2; current_epoch := 0; global_step := 0; gpus := 1 |}.

Definition example_state (use : bool) : swav :=
  {| prototypes_weight := [[1; 0]; [0; 1]]; queue := Some [[[1; 0]]];
     use_the_queue := Some use; lr_schedule := None;
     named_grads := [("prototypes.weight"%string, Some [[1; 1]; [1; 1]]);
                     ("projection_head.0.bias"%string, Some [[2; 2]])] |}.

Definition example_embedding : mat := [[0; 1]; [1; 0]].
Definition example_output : mat := [[0; 1]; [1; 0]].

(** A stand-in for the network: the embedding of a sample is the sample
    itself and the prototype head is the linear map of the weights. *)
Definition example_model (w : mat) (inputs : list mat) : mat * mat :=
  (concat inputs, mm (concat inputs) (transpose w)).

(** Two crops of one sample each, and the trailing online-evaluation view. *)
Definition example_batch : list mat := [[[0; 1]]; [[1; 0]]; [[7; 7]]].

(** The same module with prototype vectors that are not of unit norm. *)
Definition example_state_raw : swav :=
  {| prototypes_weight := [[3; 4]; [0; 2]]; queue := Some [[[1; 0]]];
     use_the_queue := Some false; lr_schedule := None; named_grads := [] |}.

(** ** Constant tensors *)

(** [torch.full((K, B), c)] *)
Definition const_mat (K B : nat) (c : R) : mat := repeat (repeat c B) K.

(** Every entry of [Q] lies in the half-open interval (0, 1]. *)
Definition is_probability (x : R) : Prop := 0 < x <= 1.

(** The number of slots of a queue and the capacity of each. *)
Definition queue_shape (qu : list mat) : list nat := map (fun slot : mat => length slot) qu.

(** ** Optimizer interface *)

(** An entry of [optimizer.param_groups]: the parameters of the group (by
    name), its ["lr"] and its ["weight_decay"]. *)
Record param_group := {
  group_params : list string;
  group_lr : R;
  group_weight_decay : R
}.

Definition set_group_lr (x : R) (g : param_group) : param_group :=
  {| group_params := group_params g; group_lr := x;
     group_weight_decay := group_weight_decay g |}.

(** The loop of [optimizer_step] over [optimizer.param_groups]:
    [param_group["lr"] = self.lr_schedule[self.trainer.global_step]].  The
    schedule is indexed once per group, so nothing is raised for an
    optimizer without groups.  The result is what [optimizer.step] then
    receives. *)
Fixpoint set_lr_loop (sched : vec) (step : nat) (groups : list param_group)
    : option (list param_group) :=
  match groups with
  | [] => Some []
  | g :: rest =>
      x <- nth_error sched step ;;
      rest' <- set_lr_loop sched step rest ;;
      Some (set_group_lr x g :: rest')
  end.

Definition optimizer_step (st : swav) (tr : trainer) (groups : list param_group)
    : option (list param_group) :=
  match groups with
  | [] => Some []
  | _ => sched <- lr_schedule st ;; set_lr_loop sched (global_step tr) groups
  end.

(** ** Weight-decay groups: [exclude_from_wt_decay] *)

(** A named parameter as the function sees it: its name and
    [param.requires_grad]. *)
Definition named_param : Type := string * bool.

(** [any(layer_name in name for layer_name in skip_list)] *)
Definition in_skip_list (skip_list : list string) (name : string) : bool :=
  existsb (fun layer_name => str_in layer_name name) skip_list.

(** The loop over [named_params], with the two lists it appends to. *)
Fixpoint exclude_loop (skip_list : list string) (named_params : list named_param)
    (params excluded_params : list string) : list string * list string :=
  match named_params with
  | [] => (params, excluded_params)
  | (name, requires_grad) :: rest =>
      if negb requires_grad then exclude_loop skip_list rest params excluded_params
      else if in_skip_list skip_list name
           then exclude_loop skip_list rest params (excluded_params ++ [name])
           else exclude_loop skip_list rest (params ++ [name]) excluded_params
  end.

Definition exclude_from_wt_decay (named_params : list named_param) (weight_decay : R)
    (skip_list : list string) : list (list string * R) :=
  let '(params, excluded_params) := exclude_loop skip_list named_params [] [] in
  [(params, weight_decay); (excluded_params, 0)].

(** The two tests that decide the group of a named parameter. *)
Definition decayed (skip_list : list string) (np : named_param) : bool :=
  snd np && negb (in_skip_list skip_list (fst np)).
Definition undecayed (skip_list : list string) (np : named_param) : bool :=
  snd np && in_skip_list skip_list (fst np).

(** The default [skip_list=['bias', 'bn']]. *)
Definition default_skip_list : list string := ["bias"%string; "bn"%string].

(** ** Queue persistence: [setup] and the file written by [on_train_epoch_end] *)

Definition starts_with_sep (s : string) : bool :=
  match s with
  | String c _ => Ascii.eqb c "/"%char
  | EmptyString => false
  end.

Fixpoint ends_with_sep (s : string) : bool :=
  match s with
  | EmptyString => false
  | String c EmptyString => Ascii.eqb c "/"%char
  | String _ s' => ends_with_sep s'
  end.

(** POSIX [os.path.join(a, b)] *)
Definition path_join (a b : string) : string :=
  if starts_with_sep b then b
  else if (String.length a =? 0)%nat || ends_with_sep a then (a ++ b)%string
  else (a ++ "/" ++ b)%string.

(** [str(n)] for a rank *)
Definition str (n : nat) : string := NilEmpty.string_of_uint (Nat.to_uint n).

(** The files under the log directory: [files path] is the tensor stored
    under the key ["queue"] of the file at [path], if the file exists.
    Directories are not modelled: [os.makedirs] only makes the later
    [torch.save] possible. *)
Definition filesystem : Type := string -> option (list mat).

(** [torch.save({"queue": q}, path)] *)
Definition torch_save (files : filesystem) (path : string) (q : list mat) : filesystem :=
  fun p => if String.eqb p path then Some q else files p.

(** The module together with its attribute [queue_path]. *)
Record swav_files := {
  module : swav;
  queue_path : string
}.

(** [setup(stage)]; [log_dir] is [self.logger.log_dir] and [global_rank] is
    [self.trainer.global_rank]. *)
Definition setup (hp : hparams) (log_dir : string) (global_rank : nat)
    (files : filesystem) (m : swav_files) : swav_files :=
  if (0 <? queue_length hp)%nat then
    let queue_folder := path_join log_dir (queue_path m) in
    let path := path_join queue_folder ("queue" ++ str global_rank ++ ".pth")%string in
    match files path with
    | Some q => {| module := set_queue (Some q) (module m); queue_path := path |}
    | None => {| module := module m; queue_path := path |}
    end
  else m.

(** The effect of [on_train_epoch_end] on the files. *)
Definition on_train_epoch_end_save (files : filesystem) (m : swav_files) : filesystem :=
  match queue (module m) with
  | Some q => torch_save files (queue_path m) q
  | None => files
  end.

(** ** The assignment engine over an arbitrary arithmetic

    The same program as [Sinkhorn.distributed_sinkhorn], written once more
    over the operations of an [arithmetic] instead of the reals, so that it
    can be run on IEEE binary32 numbers, the [float32] of the tensors.
    [torch.sum] does not fix the order of a reduction; the sums below add
    from the right, and the runs made with them in this file give the same
    result in every order (sums of two terms, of equal terms, or of small
    integers). *)

Record arithmetic (T : Type) := {
  ar_zero : T;
  ar_one : T;
  ar_add : T -> T -> T;
  ar_mul : T -> T -> T;
  ar_div : T -> T -> T;
  ar_of_nat : nat -> T
}.
Arguments ar_zero {T}.
Arguments ar_one {T}.
Arguments ar_add {T}.
Arguments ar_mul {T}.
Arguments ar_div {T}.
Arguments ar_of_nat {T}.

(** [all_reduce] for a worker whose tensors hold values of [T]. *)
Record process_group_of (T : Type) := {
  world_size_of : nat;
  remote_sum_Q_of : T;
  remote_u_of : nat -> list T
}.
Arguments world_size_of {T}.
Arguments remote_sum_Q_of {T}.
Arguments remote_u_of {T}.

Module Rounded.
Section Engine.

Context {T : Type} (ar : arithmetic T).

Definition ncols (Q : list (list T)) : nat := length (hd [] Q).
Definition vsum (v : list T) : T := fold_right (ar_add ar) (ar_zero ar) v.
Definition col (j : nat) (Q : list (list T)) : list T :=
  map (fun row => nth j row (ar_zero ar)) Q.
Definition transpose (Q : list (list T)) : list (list T) :=
  map (fun j => col j Q) (seq 0 (ncols Q)).
Definition sum_all (Q : list (list T)) : T := vsum (map vsum Q).
Definition sum_dim1 (Q : list (list T)) : list T := map vsum Q.
Definition sum_dim0 (Q : list (list T)) : list T :=
  map (fun j => vsum (col j Q)) (seq 0 (ncols Q)).
Definition ones (n : nat) : list T := repeat (ar_one ar) n.
Definition vdiv_scalar (v : list T) (s : T) : list T := map (fun x => ar_div ar x s) v.
Definition vdiv (u v : list T) : list T := map2 (ar_div ar) u v.
Definition vadd (u v : list T) : list T := map2 (ar_add ar) u v.
Definition mdiv_scalar (Q : list (list T)) (s : T) : list (list T) :=
  map (fun row => vdiv_scalar row s) Q.
Definition mul_unsqueeze1 (Q : list (list T)) (s : list T) : list (list T) :=
  map2 (fun row si => map (fun q => ar_mul ar q si) row) Q s.
Definition mul_unsqueeze0 (Q : list (list T)) (s : list T) : list (list T) :=
  map (fun row => map2 (ar_mul ar) row s) Q.
Definition div_keepdim0 (Q : list (list T)) (s : list T) : list (list T) :=
  map (fun row => vdiv row s) Q.
(** [lam * Q] *)
Definition scalar_mul (lam : T) (Q : list (list T)) : list (list T) :=
  map (map (fun q => ar_mul ar lam q)) Q.

Fixpoint distributed_iters (dist : option (process_group_of T)) (r c : list T)
    (it nmb_iters : nat) (Q : list (list T)) : list (list T) :=
  match nmb_iters with
  | O => Q
  | S n =>
      let u := sum_dim1 Q in
      let u := match dist with
               | Some g => vadd u (remote_u_of g it)
               | None => u
               end in
      let Q := mul_unsqueeze1 Q (vdiv r u) in
      let Q := mul_unsqueeze0 Q (vdiv c (sum_dim0 Q)) in
      distributed_iters dist r c (S it) n Q
  end.

Definition distributed_sinkhorn (dist : option (process_group_of T))
    (Q : list (list T)) (nmb_iters : nat) : list (list T) :=
  let sum_Q := sum_all Q in
  let sum_Q := match dist with
               | Some g => ar_add ar sum_Q (remote_sum_Q_of g)
               | None => sum_Q
               end in
  let Q := mdiv_scalar Q sum_Q in
  let '(K, B) := (length Q, ncols Q) in
  let num_procs := 1%nat in
  let num_procs := match dist with
                   | Some g => world_size_of g
                   | None => num_procs
                   end in
  let r := vdiv_scalar (ones K) (ar_of_nat ar K) in
  let c := vdiv_scalar (ones B) (ar_of_nat ar (num_procs * B)) in
  let Q := distributed_iters dist r c 0 nmb_iters Q in
  transpose (div_keepdim0 Q (sum_dim0 Q)).

End Engine.
End Rounded.

(** A process group of the real-valued model, as a group over [R]. *)
Definition group_of (g : process_group) : process_group_of R :=
  {| world_size_of := get_world_size g; remote_sum_Q_of := remote_sum_Q g;
     remote_u_of := remote_u g |}.

(** Exact arithmetic: the reals. *)
Definition real_arithmetic : arithmetic R :=
  {| ar_zero := 0; ar_one := 1; ar_add := Rplus; ar_mul := Rmult; ar_div := Rdiv;
     ar_of_nat := INR |}.

(** IEEE 754 binary32 with rounding to nearest even: 24 bits of precision,
    exponent bound 128. *)
Definition float32 : Type := spec_float.
Definition float32_of_Z (z : Z) : float32 := binary_normalize 24 128 z 0 false.
Definition float32_arithmetic : arithmetic float32 :=
  {| ar_zero := S754_zero false; ar_one := float32_of_Z 1;
     ar_add := SFadd 24 128; ar_mul := SFmul 24 128; ar_div := SFdiv 24 128;
     ar_of_nat := fun n => float32_of_Z (Z.of_nat n) |}.

(** The [float32] nearest to one tenth, [13421773 * 2^-27]. *)
Definition float32_tenth : float32 := S754_finite false 13421773 (-27).

(** * Properties *)

(** ** Lists and broadcasting *)

Lemma map2_length {A B C} (f : A -> B -> C) u v :
  length (map2 f u v) = Nat.min (length u) (length v).
Proof. unfold map2. now rewrite length_map, length_combine. Qed.

Lemma map2_nth {A B C} (f : A -> B -> C) u v j da db dc :
  (j < length u)%nat -> (j < length v)%nat ->
  nth j (map2 f u v) dc = f (nth j u da) (nth j v db).
Proof.
  revert v j. induction u as [|a u IH]; intros [|b v] j Hu Hv; simpl in *; try lia.
  destruct j as [|j]; [reflexivity|]. apply IH; lia.
Qed.

Lemma nth_map_seq {A} (f : nat -> A) n j d :
  (j < n)%nat -> nth j (map f (seq 0 n)) d = f j.
Proof.
  intros Hj. rewrite (nth_indep _ d (f 0%nat)) by now rewrite length_map, length_seq.
  rewrite map_nth, seq_nth by exact Hj. reflexivity.
Qed.

Lemma Forall_map2 {A B C} (PA : A -> Prop) (PB : B -> Prop) (PC : C -> Prop)
    (f : A -> B -> C) u v :
  (forall a b, PA a -> PB b -> PC (f a b)) ->
  Forall PA u -> Forall PB v -> Forall PC (map2 f u v).
Proof.
  intros Hf Hu. revert v. induction Hu as [|a u Ha Hu IH]; intros v Hv.
  - constructor.
  - destruct Hv as [|b v Hb Hv]; [constructor|].
    unfold map2; simpl. constructor; [now apply Hf|]. now apply IH.
Qed.

Lemma vsum_div (f : vec -> R) (d : R) (Q : mat) :
  vsum (map (fun row => f row / d) Q) = vsum (map f Q) / d.
Proof.
  induction Q as [|row Q IH]; simpl.
  - unfold Rdiv. now rewrite Rmult_0_l.
  - rewrite IH. unfold Rdiv. ring.
Qed.

Lemma vsum_pos v : v <> [] -> vpos v -> 0 < vsum v.
Proof.
  intros Hne Hv. induction Hv as [|x v Hx Hv IH]; [congruence|].
  simpl. destruct v as [|y v].
  - simpl. lra.
  - assert (0 < vsum (y :: v)) by (apply IH; discriminate). lra.
Qed.

(** ** Shape bookkeeping *)

Lemma is_mat_ncols K B Q : (0 < K)%nat -> is_mat K B Q -> ncols Q = B.
Proof.
  intros HK [HL HR]. unfold ncols. destruct Q as [|row Q]; simpl in *; [lia|].
  now inversion HR.
Qed.

Lemma is_mat_shape K B Q : (0 < K)%nat -> is_mat K B Q -> shape Q = (K, B).
Proof.
  intros HK HM. unfold shape, nrows. rewrite (is_mat_ncols K B Q HK HM).
  now destruct HM as [-> _].
Qed.

Lemma col_length j Q : length (col j Q) = length Q.
Proof. unfold col. apply length_map. Qed.

Lemma col_pos K B j Q : is_mat K B Q -> mpos Q -> (j < B)%nat -> vpos (col j Q).
Proof.
  intros [_ HR] HP Hj. unfold col. apply Forall_map.
  apply Forall_forall. intros row Hin.
  pose proof (proj1 (Forall_forall _ _) HR row Hin) as Hlen.
  pose proof (proj1 (Forall_forall _ _) HP row Hin) as Hrow.
  apply (proj1 (Forall_forall _ _) Hrow). apply nth_In. simpl in Hlen. lia.
Qed.

Lemma sum_dim1_length Q : length (sum_dim1 Q) = length Q.
Proof. apply length_map. Qed.

Lemma sum_dim0_length Q : length (sum_dim0 Q) = ncols Q.
Proof. unfold sum_dim0. now rewrite length_map, length_seq. Qed.

Lemma sum_dim1_pos K B Q : (0 < B)%nat -> is_mat K B Q -> mpos Q -> vpos (sum_dim1 Q).
Proof.
  intros HB [_ HR] HP. unfold sum_dim1. apply Forall_map.
  apply Forall_forall. intros row Hin.
  pose proof (proj1 (Forall_forall _ _) HR row Hin) as Hlen.
  pose proof (proj1 (Forall_forall _ _) HP row Hin) as Hrow.
  apply vsum_pos; [|exact Hrow].
  destruct row; simpl in *; [lia|discriminate].
Qed.

Lemma sum_dim0_pos K B Q :
  (0 < K)%nat -> is_mat K B Q -> mpos Q -> vpos (sum_dim0 Q).
Proof.
  intros HK HM HP. unfold sum_dim0. apply Forall_map.
  rewrite (is_mat_ncols K B Q HK HM). apply Forall_forall. intros j Hj.
  apply in_seq in Hj. apply vsum_pos.
  - destruct HM as [HL _]. destruct Q; simpl in *; [lia|discriminate].
  - apply (col_pos K B); [assumption|assumption|lia].
Qed.

Lemma ones_div_pos n d : 0 < d -> vpos (vdiv_scalar (ones n) d).
Proof.
  intros Hd. unfold vdiv_scalar, ones. apply Forall_map.
  apply Forall_forall. intros x Hx. apply repeat_spec in Hx. subst x.
  apply Rdiv_lt_0_compat; lra.
Qed.

Lemma ones_div_length n d : length (vdiv_scalar (ones n) d) = n.
Proof. unfold vdiv_scalar, ones. now rewrite length_map, repeat_length. Qed.

Lemma vdiv_pos u v : vpos u -> vpos v -> vpos (vdiv u v).
Proof.
  intros Hu Hv. unfold vdiv, vpos.
  apply (Forall_map2 (fun x => 0 < x) (fun x => 0 < x)); try assumption.
  intros a b Ha Hb. now apply Rdiv_lt_0_compat.
Qed.

Lemma vdiv_length u v : length (vdiv u v) = Nat.min (length u) (length v).
Proof. apply map2_length. Qed.

(** ** Each tensor operation keeps the shape and the positivity of [Q] *)

Lemma mdiv_scalar_is_mat K B Q s : is_mat K B Q -> is_mat K B (mdiv_scalar Q s).
Proof.
  intros [HL HR]. split; unfold mdiv_scalar.
  - now rewrite length_map.
  - apply Forall_map. eapply Forall_impl; [|exact HR].
    intros row Hrow. unfold vdiv_scalar. now rewrite length_map.
Qed.

Lemma mdiv_scalar_pos Q s : 0 < s -> mpos Q -> mpos (mdiv_scalar Q s).
Proof.
  intros Hs HP. unfold mdiv_scalar. apply Forall_map.
  eapply Forall_impl; [|exact HP]. intros row Hrow.
  unfold vdiv_scalar. apply Forall_map. eapply Forall_impl; [|exact Hrow].
  intros x Hx. now apply Rdiv_lt_0_compat.
Qed.

Lemma sum_all_pos K B Q :
  (0 < K)%nat -> (0 < B)%nat -> is_mat K B Q -> mpos Q -> 0 < sum_all Q.
Proof.
  intros HK HB HM HP. unfold sum_all. apply vsum_pos.
  - destruct HM as [HL _]. destruct Q; simpl in *; [lia|discriminate].
  - apply (sum_dim1_pos K B); assumption.
Qed.

Lemma mul_unsqueeze1_is_mat K B Q s :
  length s = K -> is_mat K B Q -> is_mat K B (mul_unsqueeze1 Q s).
Proof.
  intros Hs [HL HR]. split; unfold mul_unsqueeze1.
  - rewrite map2_length. lia.
  - apply (Forall_map2 (fun row => length row = B) (fun _ => True)).
    + intros row si Hrow _. now rewrite length_map.
    + exact HR.
    + apply Forall_forall. trivial.
Qed.

Lemma mul_unsqueeze1_pos Q s : vpos s -> mpos Q -> mpos (mul_unsqueeze1 Q s).
Proof.
  intros Hs HP. unfold mul_unsqueeze1.
  apply (Forall_map2 vpos (fun x => 0 < x)); try assumption.
  intros row si Hrow Hsi. apply Forall_map. eapply Forall_impl; [|exact Hrow].
  intros q Hq. now apply Rmult_lt_0_compat.
Qed.

Lemma mul_unsqueeze0_is_mat K B Q s :
  length s = B -> is_mat K B Q -> is_mat K B (mul_unsqueeze0 Q s).
Proof.
  intros Hs [HL HR]. split; unfold mul_unsqueeze0.
  - now rewrite length_map.
  - apply Forall_map. eapply Forall_impl; [|exact HR].
    intros row Hrow. simpl in *. rewrite map2_length. lia.
Qed.

Lemma mul_unsqueeze0_pos Q s : vpos s -> mpos Q -> mpos (mul_unsqueeze0 Q s).
Proof.
  intros Hs HP. unfold mul_unsqueeze0. apply Forall_map.
  eapply Forall_impl; [|exact HP]. intros row Hrow.
  apply (Forall_map2 (fun x => 0 < x) (fun x => 0 < x)); try assumption.
  intros a b Ha Hb. now apply Rmult_lt_0_compat.
Qed.

Lemma div_keepdim0_is_mat K B Q s :
  length s = B -> is_mat K B Q -> is_mat K B (div_keepdim0 Q s).
Proof.
  intros Hs [HL HR]. split; unfold div_keepdim0.
  - now rewrite length_map.
  - apply Forall_map. eapply Forall_impl; [|exact HR].
    intros row Hrow. simpl in *. rewrite vdiv_length. lia.
Qed.

(** ** The Sinkhorn loop on a single worker *)

Section SingleWorker.

Variables K B : nat.
Hypothesis HK : (0 < K)%nat.
Hypothesis HB : (0 < B)%nat.
Variables r c : vec.
Hypothesis Hr_len : length r = K.
Hypothesis Hc_len : length c = B.
Hypothesis Hr_pos : vpos r.
Hypothesis Hc_pos : vpos c.

Lemma iteration_keeps_invariant Q :
  is_mat K B Q -> mpos Q ->
  let Q1 := mul_unsqueeze1 Q (vdiv r (sum_dim1 Q)) in
  let Q2 := mul_unsqueeze0 Q1 (vdiv c (sum_dim0 Q1)) in
  is_mat K B Q2 /\ mpos Q2.
Proof.
  intros HM HP Q1 Q2.
  assert (HM1 : is_mat K B Q1).
  { apply mul_unsqueeze1_is_mat; [|exact HM].
    rewrite vdiv_length, sum_dim1_length. destruct HM as [HL _]. lia. }
  assert (HP1 : mpos Q1).
  { apply mul_unsqueeze1_pos; [|exact HP].
    apply vdiv_pos; [exact Hr_pos|]. now apply (sum_dim1_pos K B). }
  split.
  - apply mul_unsqueeze0_is_mat; [|exact HM1].
    rewrite vdiv_length, sum_dim0_length, (is_mat_ncols K B Q1 HK HM1). lia.
  - apply mul_unsqueeze0_pos; [|exact HP1].
    apply vdiv_pos; [exact Hc_pos|]. now apply (sum_dim0_pos K B).
Qed.

Lemma distributed_iters_invariant n : forall it Q,
  is_mat K B Q -> mpos Q ->
  is_mat K B (Sinkhorn.distributed_iters None r c it n Q) /\
  mpos (Sinkhorn.distributed_iters None r c it n Q).
Proof.
  induction n as [|n IH]; intros it Q HM HP; simpl.
  - now split.
  - destruct (iteration_keeps_invariant Q HM HP) as [HM2 HP2]. now apply IH.
Qed.

End SingleWorker.

Lemma INR_pos n : (0 < n)%nat -> 0 < INR n.
Proof. intros H. apply lt_0_INR. exact H. Qed.

(** The matrix that leaves the loop, for a positive input on one worker. *)
Lemma distributed_loop_output K B Q N :
  (0 < K)%nat -> (0 < B)%nat -> is_mat K B Q -> mpos Q ->
  exists Qf, is_mat K B Qf /\ mpos Qf /\
    Sinkhorn.distributed_sinkhorn None Q N =
      transpose (div_keepdim0 Qf (sum_dim0 Qf)).
Proof.
  intros HK HB HM HP. unfold Sinkhorn.distributed_sinkhorn.
  set (Q0 := mdiv_scalar Q (sum_all Q)).
  assert (HM0 : is_mat K B Q0) by now apply mdiv_scalar_is_mat.
  assert (HP0 : mpos Q0).
  { apply mdiv_scalar_pos; [|exact HP]. now apply (sum_all_pos K B). }
  rewrite (is_mat_shape K B Q0 HK HM0).
  set (r := vdiv_scalar (ones K) (INR K)).
  set (c := vdiv_scalar (ones B) (INR (1 * B))).
  destruct (distributed_iters_invariant K B HK HB r c) with (n := N) (it := 0%nat) (Q := Q0)
    as [HMf HPf]; try assumption.
  - apply ones_div_length.
  - apply ones_div_length.
  - apply ones_div_pos. now apply INR_pos.
  - apply ones_div_pos. apply INR_pos. lia.
  - eexists. split; [exact HMf|]. split; [exact HPf|]. reflexivity.
Qed.

Lemma transpose_is_mat K B M : (0 < K)%nat -> is_mat K B M -> is_mat B K (transpose M).
Proof.
  intros HK HM. unfold transpose. rewrite (is_mat_ncols K B M HK HM). split.
  - now rewrite length_map, length_seq.
  - apply Forall_map. apply Forall_forall. intros j _.
    rewrite col_length. now destruct HM.
Qed.

Lemma col_div_keepdim0 K B Qf s j :
  is_mat K B Qf -> length s = B -> (j < B)%nat ->
  col j (div_keepdim0 Qf s) = map (fun row => nth j row 0 / nth j s 0) Qf.
Proof.
  intros [_ HR] Hs Hj. unfold col, div_keepdim0. rewrite map_map.
  apply map_ext_in. intros row Hin.
  pose proof (proj1 (Forall_forall _ _) HR row Hin) as Hlen. simpl in Hlen.
  unfold vdiv. apply map2_nth; lia.
Qed.

Lemma normalised_column_sums_to_one K B Qf j :
  (0 < K)%nat -> is_mat K B Qf -> mpos Qf -> (j < B)%nat ->
  vsum (col j (div_keepdim0 Qf (sum_dim0 Qf))) = 1.
Proof.
  intros HK HM HP Hj.
  rewrite (col_div_keepdim0 K B); try assumption.
  2:{ now rewrite sum_dim0_length, (is_mat_ncols K B Qf HK HM). }
  rewrite vsum_div.
  assert (Hnth : nth j (sum_dim0 Qf) 0 = vsum (col j Qf)).
  { unfold sum_dim0. rewrite (is_mat_ncols K B Qf HK HM).
    now rewrite (nth_map_seq (fun j => vsum (col j Qf))). }
  rewrite Hnth. fold (col j Qf).
  apply Rdiv_diag.
  assert (0 < vsum (col j Qf)); [|lra].
  apply vsum_pos.
  - destruct HM as [HL _]. destruct Qf; simpl in *; [lia|discriminate].
  - now apply (col_pos K B).
Qed.

(** ** Evaluation of tensor expressions on concrete inputs *)

Ltac list_eq := repeat (apply (f_equal2 (@cons _))); try reflexivity.

Ltac tensor_eval :=
  cbv [Sinkhorn.distributed_sinkhorn Sinkhorn.distributed_iters Sinkhorn.sinkhorn
       Sinkhorn.sinkhorn_iters shape nrows ncols map2 vsum col transpose sum_all
       sum_dim1 sum_dim0 ones vdiv_scalar vdiv vadd mdiv_scalar mul_unsqueeze1
       mul_unsqueeze0 div_keepdim0 scalar_mul
       map combine fold_right seq nth hd length repeat fst snd app INR Nat.mul Nat.add].

(** ** Assignment engine: output shape and marginals *)

(** C1, as amended: on a single worker (no distributed context), for every
    strictly positive K×B input and every iteration count, the assignment
    engine returns a B×K matrix each of whose rows (one row per sample, one
    entry per prototype) sums to 1.  These rows are the columns of the
    matrix before the final transpose. *)
Theorem distributed_sinkhorn_rows_sum_to_one (K B : nat) (Q : mat) (N : nat) :
  (0 < K)%nat -> (0 < B)%nat -> is_mat K B Q -> mpos Q ->
  shape (Sinkhorn.distributed_sinkhorn None Q N) = (B, K) /\
  is_mat B K (Sinkhorn.distributed_sinkhorn None Q N) /\
  Forall (fun row => vsum row = 1) (Sinkhorn.distributed_sinkhorn None Q N).
Proof.
  intros HK HB HM HP.
  destruct (distributed_loop_output K B Q N HK HB HM HP) as (Qf & HMf & HPf & ->).
  assert (Hs : length (sum_dim0 Qf) = B)
    by now rewrite sum_dim0_length, (is_mat_ncols K B Qf HK HMf).
  pose proof (div_keepdim0_is_mat K B Qf _ Hs HMf) as HMd.
  pose proof (transpose_is_mat K B _ HK HMd) as HMt.
  split; [now apply is_mat_shape|]. split; [exact HMt|].
  unfold transpose. rewrite (is_mat_ncols K B _ HK HMd).
  apply Forall_map. apply Forall_forall. intros j Hj. apply in_seq in Hj.
  apply (normalised_column_sums_to_one K B); try assumption. lia.
Qed.

Lemma distributed_sinkhorn_rows_sum_to_one_witness :
  shape (Sinkhorn.distributed_sinkhorn None [[1; 2]; [3; 4]; [5; 6]] 3) = (2%nat, 3%nat) /\
  is_mat 2 3 (Sinkhorn.distributed_sinkhorn None [[1; 2]; [3; 4]; [5; 6]] 3) /\
  Forall (fun row => vsum row = 1)
    (Sinkhorn.distributed_sinkhorn None [[1; 2]; [3; 4]; [5; 6]] 3).
Proof.
  apply (distributed_sinkhorn_rows_sum_to_one 3 2); try lia.
  - split; [reflexivity|]. repeat constructor.
  - repeat constructor; lra.
Defined.

(** C1, as stated, fails: for K = 2 prototypes and B = 1 sample the output
    is the 1×2 matrix [[1/2; 1/2]]; its single row sums to 1 and each of its
    two columns sums to 1/2. *)
Lemma distributed_sinkhorn_columns_counterexample :
  let Q := [[1]; [1]] in
  let A := Sinkhorn.distributed_sinkhorn None Q 1 in
  is_mat 2 1 Q /\ mpos Q /\ shape A = (1%nat, 2%nat) /\
  A = [[1 / 2; 1 / 2]] /\
  sum_dim0 A = [1 / 2; 1 / 2] /\
  ~ Forall (fun s => s = 1) (sum_dim0 A).
Proof.
  assert (HA : Sinkhorn.distributed_sinkhorn None [[1]; [1]] 1 = [[1 / 2; 1 / 2]]).
  { tensor_eval. list_eq; field. }
  cbv zeta. rewrite HA.
  assert (HS : sum_dim0 [[1 / 2; 1 / 2]] = [1 / 2; 1 / 2]).
  { tensor_eval. list_eq; field. }
  rewrite HS.
  split; [split; [reflexivity|repeat constructor]|].
  split; [repeat constructor; lra|].
  split; [reflexivity|]. split; [reflexivity|]. split; [reflexivity|].
  intros H. inversion H as [|x l Hx Hl]. lra.
Qed.

(** ** Assignment engine: one worker against the unsynchronised variant *)

Lemma distributed_iters_single r c n : forall it Q,
  Sinkhorn.distributed_iters None r c it n Q = Sinkhorn.sinkhorn_iters r c n Q.
Proof.
  induction n as [|n IH]; intros it Q; simpl; [reflexivity|]. apply IH.
Qed.

(** C3: without a distributed context (world size 1, no collective
    reduction) [distributed_sinkhorn] returns exactly what the unsynchronised
    [sinkhorn] returns, for every input matrix and every iteration count. *)
Theorem distributed_sinkhorn_single_worker (Q : mat) (nmb_iters : nat) :
  Sinkhorn.distributed_sinkhorn None Q nmb_iters = Sinkhorn.sinkhorn Q nmb_iters.
Proof.
  unfold Sinkhorn.distributed_sinkhorn, Sinkhorn.sinkhorn.
  destruct (shape (mdiv_scalar Q (sum_all Q))) as [K B].
  rewrite Nat.mul_1_l, distributed_iters_single. reflexivity.
Qed.

(** ** Assignment engine: scale invariance *)

Lemma vsum_scale lam v : vsum (map (fun q => lam * q) v) = lam * vsum v.
Proof. induction v as [|x v IH]; simpl; [ring|rewrite IH; ring]. Qed.

Lemma sum_all_scalar_mul lam Q : sum_all (scalar_mul lam Q) = lam * sum_all Q.
Proof.
  unfold sum_all, scalar_mul. rewrite map_map.
  induction Q as [|row Q IH]; simpl; [ring|]. rewrite IH, vsum_scale. ring.
Qed.

Lemma mdiv_scalar_scalar_mul lam Q s :
  lam <> 0 -> mdiv_scalar (scalar_mul lam Q) (lam * s) = mdiv_scalar Q s.
Proof.
  intros Hlam. unfold mdiv_scalar, scalar_mul, vdiv_scalar.
  rewrite map_map. apply map_ext. intros row. rewrite map_map.
  apply map_ext. intros q. now apply Rdiv_mult_l_l.
Qed.

(** C4, as amended: up to floating-point rounding the assignment engine on
    one worker is scale-invariant: computed in exact real arithmetic, for
    every positive K×B matrix, every positive scalar and every iteration
    count, including 0, the engine returns on the scaled matrix exactly what
    it returns on the matrix itself. *)
Theorem distributed_sinkhorn_scale_invariant (K B : nat) (Q : mat) (lam : R) (N : nat) :
  is_mat K B Q -> mpos Q -> 0 < lam ->
  Sinkhorn.distributed_sinkhorn None (scalar_mul lam Q) N =
  Sinkhorn.distributed_sinkhorn None Q N.
Proof.
  intros _ _ Hlam. unfold Sinkhorn.distributed_sinkhorn.
  rewrite sum_all_scalar_mul, mdiv_scalar_scalar_mul by lra. reflexivity.
Qed.

Lemma distributed_sinkhorn_scale_invariant_witness :
  Sinkhorn.distributed_sinkhorn None (scalar_mul 3 [[1; 2]; [3; 4]]) 0 =
  Sinkhorn.distributed_sinkhorn None [[1; 2]; [3; 4]] 0.
Proof.
  apply (distributed_sinkhorn_scale_invariant 2 2).
  - split; [reflexivity|]. repeat constructor.
  - repeat constructor; lra.
  - lra.
Defined.

(** Over the reals the engine written over an arbitrary arithmetic is the
    engine of the real-valued model. *)
Lemma rounded_iters_over_reals dist r c n : forall it Q,
  Rounded.distributed_iters real_arithmetic (option_map group_of dist) r c it n Q =
  Sinkhorn.distributed_iters dist r c it n Q.
Proof.
  induction n as [|n IH]; intros it Q; [reflexivity|].
  cbn [Rounded.distributed_iters Sinkhorn.distributed_iters]. rewrite <- IH.
  destruct dist as [g|]; reflexivity.
Qed.

Lemma rounded_engine_over_reals (dist : distributed) (Q : mat) (N : nat) :
  Rounded.distributed_sinkhorn real_arithmetic (option_map group_of dist) Q N =
  Sinkhorn.distributed_sinkhorn dist Q N.
Proof.
  unfold Rounded.distributed_sinkhorn, Sinkhorn.distributed_sinkhorn, shape, nrows.
  rewrite <- rounded_iters_over_reals. destruct dist as [g|]; reflexivity.
Qed.

(** C4, as stated, fails on the code, which computes in [float32]: for the
    2×1 matrix [[1]; [5]], the scalar 0.1 and no iteration, the engine
    returns [11184811 * 2^-26] for the first prototype on the matrix and
    [11184810 * 2^-26] on the scaled matrix [[0.1]; [0.5]]. *)
Lemma float32_scale_invariance_counterexample :
  let Q := [[float32_of_Z 1]; [float32_of_Z 5]] in
  let lam := float32_tenth in
  let lamQ := Rounded.scalar_mul float32_arithmetic lam Q in
  SFltb (S754_zero false) lam = true /\
  Forall (Forall (fun q => SFltb (S754_zero false) q = true)) Q /\
  lamQ = [[float32_tenth]; [S754_finite false 8388608 (-24)]] /\
  Rounded.distributed_sinkhorn float32_arithmetic None Q 0 =
    [[S754_finite false 11184811 (-26); S754_finite false 13981013 (-24)]] /\
  Rounded.distributed_sinkhorn float32_arithmetic None lamQ 0 =
    [[S754_finite false 11184810 (-26); S754_finite false 13981013 (-24)]] /\
  Rounded.distributed_sinkhorn float32_arithmetic None lamQ 0 <>
    Rounded.distributed_sinkhorn float32_arithmetic None Q 0.
Proof.
  cbv zeta. split; [reflexivity|]. split; [repeat constructor|].
  split; [vm_compute; reflexivity|]. split; [vm_compute; reflexivity|].
  split; [vm_compute; reflexivity|]. vm_compute. discriminate.
Qed.

(** With a process group the same holds when every worker scales its input:
    the other workers' share of the total mass is scaled alike, and their
    row marginals, taken after the first normalisation, are unchanged. *)
Lemma distributed_sinkhorn_scale_invariant_group (g : process_group) (Q : mat)
    (lam : R) (N : nat) :
  lam <> 0 ->
  Sinkhorn.distributed_sinkhorn
    (Some {| get_world_size := get_world_size g;
             remote_sum_Q := lam * remote_sum_Q g;
             remote_u := remote_u g |}) (scalar_mul lam Q) N =
  Sinkhorn.distributed_sinkhorn (Some g) Q N.
Proof.
  intros Hlam. unfold Sinkhorn.distributed_sinkhorn. simpl.
  rewrite sum_all_scalar_mul, <- Rmult_plus_distr_l, mdiv_scalar_scalar_mul by exact Hlam.
  destruct (shape (mdiv_scalar Q (sum_all Q + remote_sum_Q g))) as [K B].
  assert (Hit : forall r c n it M,
    Sinkhorn.distributed_iters
      (Some {| get_world_size := get_world_size g;
               remote_sum_Q := lam * remote_sum_Q g;
               remote_u := remote_u g |}) r c it n M =
    Sinkhorn.distributed_iters (Some g) r c it n M).
  { intros r c n. induction n as [|n IH]; intros it M; simpl; [reflexivity|]. apply IH. }
  rewrite Hit. reflexivity.
Qed.

(** ** The error monad *)

Lemma bind_Some {A B} (m : option A) (k : A -> option B) (b : B) :
  bind m k = Some b -> exists a, m = Some a /\ k a = Some b.
Proof. destruct m as [a|]; simpl; [eauto|discriminate]. Qed.

Ltac inv_bind H :=
  let a := fresh "a" in
  let Ha := fresh "Ha" in
  apply bind_Some in H; destruct H as (a & Ha & H).

(** ** Feature queue *)

Lemma broadcast_rows_exact {A} (n : nat) (src : list A) :
  length src = n -> broadcast_rows n src = Some src.
Proof. intros H. unfold broadcast_rows. now rewrite (proj2 (Nat.eqb_eq _ _) H). Qed.

Lemma slice_to_neg_pos {A} (n : nat) (l : list A) :
  (0 < n)%nat -> slice_to_neg n l = firstn (length l - n) l.
Proof. destruct n; [lia|reflexivity]. Qed.

Lemma slice_from_neg_pos {A} (n : nat) (l : list A) :
  (0 < n)%nat -> slice_from_neg n l = skipn (length l - n) l.
Proof. destruct n; [lia|reflexivity]. Qed.

Lemma fill_queue_shift (slot : mat) (bs : nat) (emb : mat) :
  (0 < bs)%nat -> (bs <= length slot)%nat -> length emb = bs ->
  fill_queue slot bs emb = Some (emb ++ firstn (length slot - bs) slot).
Proof.
  intros Hbs Hle Hemb. unfold fill_queue, assign_from, assign_to.
  rewrite slice_to_neg_pos by exact Hbs.
  rewrite broadcast_rows_exact.
  2:{ rewrite length_firstn, length_skipn. lia. }
  simpl bind. rewrite broadcast_rows_exact.
  2:{ rewrite length_firstn, length_app, !length_firstn. lia. }
  simpl bind. f_equal. f_equal.
  rewrite skipn_app, length_firstn.
  replace (bs - Nat.min bs (length slot))%nat with 0%nat by lia.
  rewrite skipn_all2 by (rewrite length_firstn; lia). reflexivity.
Qed.

Lemma fill_queue_length (slot : mat) (bs : nat) (emb : mat) :
  (0 < bs)%nat -> (bs <= length slot)%nat -> length emb = bs ->
  length (emb ++ firstn (length slot - bs) slot) = length slot.
Proof. intros. rewrite length_app, length_firstn. lia. Qed.

Lemma fill_queue_many_shift (bs : nat) (embs : list mat) : forall slot : mat,
  (0 < bs)%nat -> Forall (fun emb => length emb = bs) embs ->
  (length embs * bs <= length slot)%nat ->
  fill_queue_many slot bs embs =
    Some (concat (rev embs) ++ firstn (length slot - length embs * bs) slot).
Proof.
  induction embs as [|emb rest IH]; intros slot Hbs Hall Hle; simpl in *.
  - rewrite Nat.sub_0_r, firstn_all. reflexivity.
  - inversion Hall as [|e l He Hrest]; subst e l.
    rewrite fill_queue_shift by lia. simpl bind.
    rewrite IH; try assumption.
    2:{ rewrite fill_queue_length by lia. lia. }
    rewrite fill_queue_length by lia. f_equal.
    rewrite concat_app. simpl. rewrite app_nil_r, <- app_assoc. f_equal.
    rewrite firstn_app, He.
    rewrite firstn_all2 by lia. f_equal.
    rewrite firstn_firstn. f_equal. lia.
Qed.

(** ** Step 4 of [shared_step], case by case *)

Section StepFacts.

Variable model : mat -> list mat -> mat * mat.
Variable dist : distributed.

Lemma use_queue_block_no_queue st i crop_id bs embedding out :
  queue st = None -> use_queue_block st i crop_id bs embedding out = Some (out, st).
Proof. intros H. unfold use_queue_block. now rewrite H. Qed.

Lemma use_queue_block_cases st i crop_id bs embedding out out' st' qu :
  queue st = Some qu ->
  use_queue_block st i crop_id bs embedding out = Some (out', st') ->
  exists use slot slot',
    use_the_queue st = Some use /\ nth_error qu i = Some slot /\
    fill_queue slot bs (py_slice (crop_id * bs) ((crop_id + 1) * bs) embedding)
      = Some slot' /\
    queue st' = Some (set_nth i slot' qu) /\
    prototypes_weight st' = prototypes_weight st /\
    lr_schedule st' = lr_schedule st /\
    named_grads st' = named_grads st /\
    (((use = true \/ exists last, last_row slot = Some last /\ all_zero last = false) /\
      out' = cat (mm slot (transpose (prototypes_weight st))) out /\
      use_the_queue st' = Some true)
     \/
     (use = false /\ (exists last, last_row slot = Some last /\ all_zero last = true) /\
      out' = out /\ use_the_queue st' = Some false)).
Proof.
  intros Hq H. unfold use_queue_block in H. rewrite Hq in H.
  inv_bind H. rename a into use.
  inv_bind H. rename a into in_use.
  inv_bind H. destruct a as [out1 st1].
  inv_bind H. rename a into slot.
  inv_bind H. rename a into slot'.
  injection H as <- <-.
  exists use, slot, slot'.
  destruct use.
  - injection Ha0 as <-. rewrite Ha2 in Ha1. simpl in Ha1.
    injection Ha1 as <- <-. simpl.
    repeat (split; [assumption || reflexivity|]).
    left. split; [now left|]. split; reflexivity.
  - rewrite Ha2 in Ha0. simpl in Ha0. inv_bind Ha0. rename a into last.
    injection Ha0 as <-.
    destruct (all_zero last) eqn:Hz; simpl in Ha1.
    + injection Ha1 as <- <-. simpl.
      repeat (split; [assumption || reflexivity|]).
      right. split; [reflexivity|]. split; [now exists last|]. now split.
    + rewrite Ha2 in Ha1. simpl in Ha1. injection Ha1 as <- <-. simpl.
      repeat (split; [assumption || reflexivity|]).
      left. split; [right; now exists last|]. split; reflexivity.
Qed.

End StepFacts.

(** C6: in every assignment-crop slot the queue update of a step moves the
    stored rows back by the batch size B, dropping the oldest B rows, and
    writes the batch's embeddings of that crop into the first B rows; so
    after one insertion into a slot of capacity C = n·B (n ≥ 1) the first B
    rows are the inserted embeddings, and after C/B insertions nothing of the
    original content is left. *)
Theorem queue_update_is_fifo (slot : mat) (bs n : nat) :
  (0 < bs)%nat -> length slot = (n * bs)%nat ->
  (forall emb : mat, (0 < n)%nat -> length emb = bs ->
     exists slot', fill_queue slot bs emb = Some slot' /\
       length slot' = length slot /\
       firstn bs slot' = emb /\
       skipn bs slot' = firstn (length slot - bs) slot) /\
  (forall embs : list mat, length embs = n ->
     Forall (fun emb => length emb = bs) embs ->
     fill_queue_many slot bs embs = Some (concat (rev embs))) /\
  (forall st i crop_id embedding out out' st' qu,
     queue st = Some qu -> nth_error qu i = Some slot ->
     use_queue_block st i crop_id bs embedding out = Some (out', st') ->
     exists slot',
       fill_queue slot bs (py_slice (crop_id * bs) ((crop_id + 1) * bs) embedding)
         = Some slot' /\
       queue st' = Some (set_nth i slot' qu)).
Proof.
  intros Hbs HC. split; [|split].
  - intros emb Hn Hemb.
    assert (Hle : (bs <= length slot)%nat) by nia.
    exists (emb ++ firstn (length slot - bs) slot).
    split; [now apply fill_queue_shift|].
    split; [now apply fill_queue_length|].
    split.
    + rewrite firstn_app, Hemb, Nat.sub_diag. simpl.
      rewrite app_nil_r. apply firstn_all2. lia.
    + rewrite skipn_app, Hemb, Nat.sub_diag. simpl.
      rewrite skipn_all2 by lia. reflexivity.
  - intros embs Hlen Hall.
    rewrite fill_queue_many_shift; try assumption.
    2:{ rewrite Hlen, HC. lia. }
    rewrite Hlen, HC, Nat.sub_diag. simpl. now rewrite app_nil_r.
  - intros st i crop_id embedding out out' st' qu Hq Hslot Hrun.
    destruct (use_queue_block_cases st i crop_id bs embedding out out' st' qu Hq Hrun)
      as (use & slot0 & slot' & _ & Hs0 & Hfill & Hq' & _).
    rewrite Hslot in Hs0. injection Hs0 as <-. now exists slot'.
Qed.

Lemma queue_update_is_fifo_witness :
  (forall emb : mat, (0 < 2)%nat -> length emb = 1%nat ->
     exists slot', fill_queue [[1; 2]; [3; 4]] 1 emb = Some slot' /\
       length slot' = length [[1; 2]; [3; 4]] /\
       firstn 1 slot' = emb /\
       skipn 1 slot' = firstn (length [[1; 2]; [3; 4]] - 1) [[1; 2]; [3; 4]]) /\
  (forall embs : list mat, length embs = 2%nat ->
     Forall (fun emb => length emb = 1%nat) embs ->
     fill_queue_many [[1; 2]; [3; 4]] 1 embs = Some (concat (rev embs))) /\
  (forall st i crop_id embedding out out' st' qu,
     queue st = Some qu -> nth_error qu i = Some [[1; 2]; [3; 4]] ->
     use_queue_block st i crop_id 1 embedding out = Some (out', st') ->
     exists slot',
       fill_queue [[1; 2]; [3; 4]] 1
         (py_slice (crop_id * 1) ((crop_id + 1) * 1) embedding) = Some slot' /\
       queue st' = Some (set_nth i slot' qu)).
Proof.
  apply (queue_update_is_fifo [[1; 2]; [3; 4]] 1 2); [lia|reflexivity].
Defined.

(** ** Shapes through the assignment engine, with or without a process group *)

Lemma distributed_iters_is_mat K B dist r c :
  (0 < K)%nat -> length r = K -> length c = B -> dist_ok K dist ->
  forall n it Q, is_mat K B Q -> is_mat K B (Sinkhorn.distributed_iters dist r c it n Q).
Proof.
  intros HK Hr Hc Hd. induction n as [|n IH]; intros it Q HM; simpl; [exact HM|].
  apply IH.
  set (u := match dist with Some g => vadd (sum_dim1 Q) (remote_u g it) | None => sum_dim1 Q end).
  assert (Hu : length u = K).
  { subst u. destruct dist as [g|]; simpl in Hd.
    - unfold vadd. rewrite map2_length, sum_dim1_length, Hd.
      destruct HM as [-> _]. apply Nat.min_id.
    - rewrite sum_dim1_length. now destruct HM. }
  assert (HM1 : is_mat K B (mul_unsqueeze1 Q (vdiv r u))).
  { apply mul_unsqueeze1_is_mat; [|exact HM]. rewrite vdiv_length. lia. }
  apply mul_unsqueeze0_is_mat; [|exact HM1].
  rewrite vdiv_length, sum_dim0_length, (is_mat_ncols K B _ HK HM1). lia.
Qed.

Lemma distributed_sinkhorn_is_mat K B dist Q n :
  (0 < K)%nat -> dist_ok K dist -> is_mat K B Q ->
  is_mat B K (Sinkhorn.distributed_sinkhorn dist Q n).
Proof.
  intros HK Hd HM. unfold Sinkhorn.distributed_sinkhorn.
  set (s := match dist with Some g => sum_all Q + remote_sum_Q g | None => sum_all Q end).
  pose proof (mdiv_scalar_is_mat K B Q s HM) as HM0.
  rewrite (is_mat_shape K B _ HK HM0).
  set (r := vdiv_scalar (ones K) (INR K)).
  set (c := vdiv_scalar (ones B) _).
  pose proof (distributed_iters_is_mat K B dist r c HK
                (ones_div_length _ _) (ones_div_length _ _) Hd n 0%nat _ HM0) as HMf.
  apply (transpose_is_mat K B); [exact HK|].
  apply div_keepdim0_is_mat; [|exact HMf].
  now rewrite sum_dim0_length, (is_mat_ncols K B _ HK HMf).
Qed.

Lemma py_slice_length {A} (a b : nat) (l : list A) :
  (b <= length l)%nat -> length (py_slice a b l) = (b - a)%nat.
Proof. intros H. unfold py_slice. rewrite length_firstn, length_skipn. lia. Qed.

Lemma Forall_skipn_own {A} (P : A -> Prop) (n : nat) (l : list A) :
  Forall P l -> Forall P (skipn n l).
Proof.
  intros H. rewrite <- (firstn_skipn n l) in H. now apply Forall_app in H.
Qed.

Lemma Forall_firstn_own {A} (P : A -> Prop) (n : nat) (l : list A) :
  Forall P l -> Forall P (firstn n l).
Proof.
  intros H. rewrite <- (firstn_skipn n l) in H. now apply Forall_app in H.
Qed.

Lemma py_slice_Forall {A} (P : A -> Prop) (a b : nat) (l : list A) :
  Forall P l -> Forall P (py_slice a b l).
Proof.
  intros H. unfold py_slice. now apply Forall_firstn_own, Forall_skipn_own.
Qed.

Lemma transpose_ncols K D W :
  (0 < D)%nat -> is_mat K D W -> (0 < K)%nat -> ncols (transpose W) = K.
Proof.
  intros HD HM HK. pose proof (transpose_is_mat K D W HK HM) as HT.
  now apply (is_mat_ncols D K).
Qed.

Lemma mm_is_mat (A M : mat) : is_mat (length A) (ncols M) (mm A M).
Proof.
  split; unfold mm; [now rewrite length_map|].
  apply Forall_map. apply Forall_forall. intros a _.
  now rewrite length_map, length_seq.
Qed.

Lemma exp_div_is_mat K B out eps : is_mat K B out -> is_mat K B (exp_div out eps).
Proof.
  intros [HL HR]. split; unfold exp_div; [now rewrite length_map|].
  apply Forall_map. eapply Forall_impl; [|exact HR].
  intros row Hrow. simpl in *. now rewrite length_map.
Qed.

(** ** The rows returned by the assignment computation *)

Section AssignmentRows.

Variable dist : distributed.

(** C5: when the queue of slot [i] contributed its [L] rows to the matrix
    handed to the assignment engine, the engine's output has [L + bs] rows
    and the caller receives exactly its last [bs] rows, those of the current
    batch: row [j] of the result is row [L + j] of the full assignment, and
    the first [L] rows, which belong to the queue, are dropped.  Only the
    returned rows reach the loss. *)
Theorem assignment_returns_current_batch_rows
    (hp : hparams) (st st' : swav) (i crop_id bs Kp D : nat)
    (embedding output q : mat) (qu : list mat) (slot : mat) :
  (0 < bs)%nat -> (0 < Kp)%nat -> (0 < D)%nat -> dist_ok Kp dist ->
  is_mat Kp D (prototypes_weight st) ->
  Forall (fun row => length row = Kp) output ->
  (bs * (crop_id + 1) <= length output)%nat ->
  queue st = Some qu -> nth_error qu i = Some slot ->
  (use_the_queue st = Some true \/
   exists last, last_row slot = Some last /\ all_zero last = false) ->
  assignment_block dist hp st i crop_id bs embedding output = Some (q, st') ->
  let out := py_slice (bs * crop_id) (bs * (crop_id + 1)) output in
  let fed := cat (mm slot (transpose (prototypes_weight st))) out in
  let full := get_assignments dist (transpose (exp_div fed (epsilon hp)))
                (sinkhorn_iterations hp) in
  length out = bs /\
  length fed = (length slot + bs)%nat /\
  length full = (length slot + bs)%nat /\
  q = skipn (length slot) full /\
  length q = bs /\
  forall j, (j < bs)%nat -> nth_error q j = nth_error full (length slot + j).
Proof.
  intros Hbs HK HD Hd HW Hout Hlen Hq Hslot Huse Hrun out fed full.
  assert (Hout_len : length out = bs).
  { subst out. rewrite py_slice_length by exact Hlen. nia. }
  assert (Hfed_len : length fed = (length slot + bs)%nat).
  { subst fed. unfold cat. rewrite length_app, Hout_len.
    f_equal. unfold mm. apply length_map. }
  assert (Hfed : is_mat (length slot + bs) Kp fed).
  { split; [exact Hfed_len|]. subst fed. unfold cat. apply Forall_app. split.
    - destruct (mm_is_mat slot (transpose (prototypes_weight st))) as [_ HR].
      now rewrite (transpose_ncols Kp D) in HR.
    - subst out. now apply py_slice_Forall. }
  assert (Hfull : is_mat (length slot + bs) Kp full).
  { subst full. unfold get_assignments.
    apply distributed_sinkhorn_is_mat; [exact HK|exact Hd|].
    apply (transpose_is_mat (length slot + bs) Kp); [lia|].
    now apply exp_div_is_mat. }
  assert (Hfull_len : length full = (length slot + bs)%nat) by now destruct Hfull.
  unfold assignment_block in Hrun. inv_bind Hrun. destruct a as [out1 st1].
  injection Hrun as Hq_eq Hst.
  destruct (use_queue_block_cases st i crop_id bs embedding _ out1 st1 qu Hq Ha)
    as (use & slot0 & slot' & Huse0 & Hs0 & _ & _ & _ & _ & _ & Hcase).
  rewrite Hslot in Hs0. injection Hs0 as <-.
  assert (Hout1 : out1 = fed).
  { destruct Hcase as [(_ & -> & _)|(Hfalse & (last & Hlast & Hz) & _)].
    - reflexivity.
    - exfalso. destruct Huse as [Hu|(last' & Hlast' & Hz')].
      + rewrite Hu in Huse0. injection Huse0 as <-. discriminate.
      + rewrite Hlast in Hlast'. injection Hlast' as <-. congruence. }
  subst out1. fold full in Hq_eq.
  rewrite slice_from_neg_pos in Hq_eq by exact Hbs.
  rewrite Hfull_len in Hq_eq.
  replace (length slot + bs - bs)%nat with (length slot) in Hq_eq by lia.
  subst q.
  split; [exact Hout_len|]. split; [exact Hfed_len|]. split; [exact Hfull_len|].
  split; [reflexivity|]. split; [rewrite length_skipn; lia|].
  intros j _. apply nth_error_skipn.
Qed.

End AssignmentRows.

Lemma assignment_returns_current_batch_rows_witness :
  exists q st',
    assignment_block None example_hp (example_state true) 0 0 1
      example_embedding example_output = Some (q, st') /\
    length q = 1%nat /\
    q = skipn 1 (get_assignments None
                   (transpose (exp_div (cat (mm [[1; 0]] (transpose [[1; 0]; [0; 1]]))
                                            (py_slice 0 1 example_output)) 1)) 1).
Proof.
  eexists. eexists. split; [reflexivity|].
  edestruct (assignment_returns_current_batch_rows None example_hp (example_state true))
    with (i := 0%nat) (crop_id := 0%nat) (bs := 1%nat) (Kp := 2%nat) (D := 2%nat)
         (embedding := example_embedding) (output := example_output)
         (slot := [[1; 0]])
    as (_ & _ & _ & Hq & Hlen & _).
  - lia.
  - lia.
  - lia.
  - exact I.
  - split; [reflexivity|]. repeat constructor.
  - repeat constructor.
  - simpl. lia.
  - reflexivity.
  - reflexivity.
  - left. reflexivity.
  - reflexivity.
  - split; [exact Hlen|exact Hq].
Defined.

(** ** The queue in-use latch *)

Section Latch.

Variable model : mat -> list mat -> mat * mat.
Variable dist : distributed.
Variable hp : hparams.

Lemma use_queue_block_latched st i crop_id bs embedding out out' st' :
  latched st -> use_queue_block st i crop_id bs embedding out = Some (out', st') ->
  latched st'.
Proof.
  intros Hl Hrun. destruct (queue st) as [qu|] eqn:Hq.
  - destruct (use_queue_block_cases st i crop_id bs embedding out out' st' qu Hq Hrun)
      as (use & slot & slot' & Hu & _ & _ & _ & _ & _ & _ & Hcase).
    destruct Hcase as [(_ & _ & H)|(Hfalse & _)]; [exact H|].
    unfold latched in Hl. rewrite Hl in Hu. injection Hu as <-. discriminate.
  - rewrite use_queue_block_no_queue in Hrun by exact Hq.
    injection Hrun as _ <-. exact Hl.
Qed.

Lemma assignment_block_latched st i crop_id bs embedding output q st' :
  latched st ->
  assignment_block dist hp st i crop_id bs embedding output = Some (q, st') ->
  latched st'.
Proof.
  intros Hl Hrun. unfold assignment_block in Hrun. inv_bind Hrun.
  destruct a as [out1 st1]. injection Hrun as _ <-.
  eapply use_queue_block_latched; eassumption.
Qed.

Lemma crops_loop_step embedding output bs crop_id rest i loss st r :
  crops_loop dist hp embedding output bs (crop_id :: rest) i loss st = Some r ->
  exists q st1 vs subloss,
    assignment_block dist hp st i crop_id bs embedding output = Some (q, st1) /\
    np_delete (arange (Z.of_nat (total_crops hp))) crop_id = Some vs /\
    subloss_loop hp q output bs vs 0 = Some subloss /\
    crops_loop dist hp embedding output bs rest (S i)
      (loss + subloss / IZR (Z.of_nat (total_crops hp) - 1)) st1 = Some r.
Proof.
  intros H. simpl in H. inv_bind H. destruct a as [q st1].
  inv_bind H. rename a into vs. inv_bind H. rename a into subloss.
  exists q, st1, vs, subloss. repeat split; assumption.
Qed.

Lemma crops_loop_latched embedding output bs crops : forall i loss st loss' st',
  latched st ->
  crops_loop dist hp embedding output bs crops i loss st = Some (loss', st') ->
  latched st'.
Proof.
  induction crops as [|crop_id rest IH]; intros i loss st loss' st' Hl Hrun.
  - simpl in Hrun. injection Hrun as _ <-. exact Hl.
  - apply crops_loop_step in Hrun. destruct Hrun as (q & st1 & vs & subloss & Hb & _ & _ & Hrest).
    eapply IH; [|exact Hrest]. eapply assignment_block_latched; eassumption.
Qed.






End Latch.

Lemma all_zero_nonzero_head (x : R) (v : vec) : x <> 0 -> all_zero (x :: v) = false.
Proof.
  intros Hx. unfold all_zero. simpl. unfold Req_bool at 1.
  destruct (Req_dec_T x 0) as [H|H]; [contradiction|reflexivity].
Qed.


(** ** Prototype gradient gate *)

(** [str_in sub name] holds exactly when [sub] occurs in [name]. *)
Lemma str_in_occurs (sub name : string) :
  sub <> EmptyString ->
  (str_in sub name = true <-> exists m, substring m (String.length sub) name = sub).
Proof.
  intros Hne. unfold str_in. destruct (index 0 sub name) as [m|] eqn:Hi.
  - split; [intros _|reflexivity]. exists m. eapply index_correct1. exact Hi.
  - split; [discriminate|]. intros [m Hm]. exfalso.
    apply (index_correct3 0 m sub name Hi Hne); [lia|exact Hm].
Qed.

Lemma nth_error_gated (gs : list (string * option mat)) (k : nat) name g :
  nth_error gs k = Some (name, g) ->
  nth_error (map (fun np => if str_in "prototypes" (fst np) then (fst np, None) else np) gs) k
    = Some (name, if str_in "prototypes" name then None else g).
Proof.
  intros H. rewrite nth_error_map, H. simpl.
  now destruct (str_in "prototypes" name).
Qed.

(** C9: while the current epoch is strictly below [freeze_prototypes_epochs]
    the hook after the backward pass sets to [None] the gradient of every
    parameter whose name contains "prototypes" and leaves every other
    gradient, and the rest of the module, as it was; from the threshold on it
    changes nothing. *)
Theorem prototype_gradient_gate (hp : hparams) (tr : trainer) (st : swav) :
  ((current_epoch tr < freeze_prototypes_epochs hp)%Z ->
     let st' := on_after_backward hp tr st in
     length (named_grads st') = length (named_grads st) /\
     (forall k name g, nth_error (named_grads st) k = Some (name, g) ->
        nth_error (named_grads st') k =
          Some (name, if str_in "prototypes" name then None else g)) /\
     prototypes_weight st' = prototypes_weight st /\
     queue st' = queue st /\ use_the_queue st' = use_the_queue st /\
     lr_schedule st' = lr_schedule st) /\
  ((freeze_prototypes_epochs hp <= current_epoch tr)%Z ->
     on_after_backward hp tr st = st).
Proof.
  split.
  - intros Hlt. unfold on_after_backward.
    rewrite (proj2 (Z.ltb_lt _ _) Hlt). simpl.
    split; [now rewrite length_map|].
    split; [intros k name g H; now apply nth_error_gated|].
    repeat split.
  - intros Hge. unfold on_after_backward.
    now rewrite (proj2 (Z.ltb_ge _ _) Hge).
Qed.

Lemma prototype_gradient_gate_witness :
  let st' := on_after_backward example_hp example_trainer (example_state false) in
  nth_error (named_grads st') 0 = Some ("prototypes.weight"%string, None) /\
  nth_error (named_grads st') 1 = Some ("projection_head.0.bias"%string, Some [[2; 2]]) /\
  on_after_backward example_hp
    {| num_training_batches := 2; current_epoch := 1; global_step := 2; gpus := 1 |}
    (example_state false) = example_state false.
Proof.
  destruct (prototype_gradient_gate example_hp example_trainer (example_state false))
    as [Hfrozen _].
  destruct (prototype_gradient_gate example_hp
              {| num_training_batches := 2; current_epoch := 1; global_step := 2; gpus := 1 |}
              (example_state false)) as [_ Hactive].
  assert (Hlt : (current_epoch example_trainer < freeze_prototypes_epochs example_hp)%Z)
    by (simpl; lia).
  destruct (Hfrozen Hlt) as (_ & Hk & _).
  split; [exact (Hk 0%nat _ _ eq_refl)|].
  split; [exact (Hk 1%nat _ _ eq_refl)|].
  apply Hactive. simpl. lia.
Defined.

(** ** The swapped-prediction loss *)

Lemma filter_all_true {A} (f : A -> bool) (l : list A) :
  (forall x, In x l -> f x = true) -> filter f l = l.
Proof.
  induction l as [|x l IH]; intros H; simpl; [reflexivity|].
  rewrite (H x (or_introl eq_refl)). f_equal. apply IH.
  intros y Hy. apply H. now right.
Qed.

Lemma delete_seq (n : nat) : forall c s, (c < n)%nat ->
  firstn c (seq s n) ++ skipn (S c) (seq s n) =
  filter (fun v => negb (v =? s + c)%nat) (seq s n).
Proof.
  induction n as [|n IH]; intros c s Hc; [lia|].
  destruct c as [|c]; cbn [seq firstn skipn app filter].
  - rewrite Nat.add_0_r, Nat.eqb_refl. cbn [negb].
    symmetry. apply filter_all_true. intros x Hx. apply in_seq in Hx.
    apply negb_true_iff, Nat.eqb_neq. lia.
  - replace (s =? s + S c)%nat with false by (symmetry; apply Nat.eqb_neq; lia).
    cbn [negb]. f_equal. rewrite IH by lia.
    apply filter_ext. intros v. now rewrite Nat.add_succ_comm.
Qed.

Lemma np_delete_arange (n crop_id : nat) (vs : list nat) :
  np_delete (arange (Z.of_nat n)) crop_id = Some vs ->
  (crop_id < n)%nat /\ vs = filter (fun v => negb (v =? crop_id)%nat) (seq 0 n).
Proof.
  unfold np_delete, arange. rewrite Nat2Z.id, length_seq.
  destruct (crop_id <? n)%nat eqn:Hlt; [|discriminate].
  apply Nat.ltb_lt in Hlt. intros [= <-]. split; [exact Hlt|].
  now rewrite delete_seq.
Qed.

Lemma prediction_term_spec hp q output bs v t :
  prediction_term hp q output bs v = Some t -> spec_cross_entropy hp q output bs v = - t.
Proof.
  unfold prediction_term, spec_cross_entropy.
  destruct (_ =? _)%nat; [|discriminate]. now intros [= <-].
Qed.

Lemma subloss_loop_spec hp q output bs vs : forall subloss s,
  subloss_loop hp q output bs vs subloss = Some s ->
  s = subloss + vsum (map (spec_cross_entropy hp q output bs) vs).
Proof.
  induction vs as [|v vs IH]; intros subloss s H; simpl in *.
  - injection H as <-. ring.
  - inv_bind H. rename a into t. apply IH in H.
    rewrite (prediction_term_spec _ _ _ _ _ _ Ha). rewrite H. ring.
Qed.

Section Loss.

Variable model : mat -> list mat -> mat * mat.
Variable dist : distributed.
Variable hp : hparams.

Lemma crops_loop_spec embedding output bs crops : forall i loss st loss' st',
  crops_loop dist hp embedding output bs crops i loss st = Some (loss', st') ->
  exists qs,
    assignment_pass dist hp embedding output bs crops i st = Some (qs, st') /\
    length qs = length crops /\
    Forall (fun crop_id => (crop_id < total_crops hp)%nat) crops /\
    loss' = loss + vsum (map2 (spec_subloss hp output bs) crops qs).
Proof.
  induction crops as [|crop_id rest IH]; intros i loss st loss' st' H.
  - simpl in H. injection H as <- <-. exists []. simpl.
    repeat split; [constructor|unfold map2; simpl; ring].
  - apply crops_loop_step in H. destruct H as (q & st1 & vs & subloss & Hb & Hv & Hs & Hrest).
    apply IH in Hrest. destruct Hrest as (qs & Hpass & Hlen & Hall & Hloss).
    apply np_delete_arange in Hv. destruct Hv as [Hlt ->].
    apply subloss_loop_spec in Hs.
    exists (q :: qs). simpl. rewrite Hb. simpl. rewrite Hpass. simpl.
    split; [reflexivity|]. split; [now rewrite Hlen|].
    split; [now constructor|].
    rewrite Hloss, Hs. unfold map2. simpl. unfold spec_subloss at 2.
    rewrite minus_IZR, <- INR_IZR_INZ. fold (map2 (spec_subloss hp output bs) rest qs).
    rewrite Rplus_0_l. ring.
Qed.

(** C2: whenever [shared_step] returns a loss, that loss is the one the
    specification words: with [qs] the soft targets computed for the
    assignment crops, each assignment crop contributes the sum, over every
    other crop [v] of the full crop set, of the negative mean over samples of
    the cluster-wise sum of [q ⊙ log softmax(logits_v / temperature)],
    divided by the number of crops minus one; and the loss is the average of
    these contributions over the assignment crops. *)
Theorem shared_step_loss_is_swapped_prediction (st st' : swav) (batch : list mat) (loss : R) :
  shared_step model dist hp st batch = Some (loss, st') ->
  let w := normalize (prototypes_weight st) in
  let inputs := removelast batch in
  let embedding := fst (model w inputs) in
  let output := snd (model w inputs) in
  let bs := length (hd [] inputs) in
  exists qs,
    assignment_pass dist hp embedding output bs (crops_for_assign hp) 0
      (set_prototypes_weight w st) = Some (qs, st') /\
    length qs = length (crops_for_assign hp) /\
    loss = spec_loss hp output bs qs.
Proof.
  intros H w inputs embedding output bs. unfold shared_step in H. simpl in H.
  fold w inputs in H. subst embedding output.
  destruct (model w inputs) as [embedding output]. simpl.
  inv_bind H. rename a into x0. inv_bind H. destruct a as [loss1 st1].
  destruct (length (crops_for_assign hp) =? 0)%nat; [discriminate|].
  injection H as <- <-.
  assert (Hbs : bs = length x0).
  { subst bs. destruct inputs; simpl in *; [discriminate|]. now injection Ha as ->. }
  rewrite <- Hbs in Ha0.
  apply crops_loop_spec in Ha0. destruct Ha0 as (qs & Hpass & Hlen & _ & Hloss).
  exists qs. split; [exact Hpass|]. split; [exact Hlen|].
  unfold spec_loss. rewrite Hloss. f_equal. ring.
Qed.

End Loss.

Lemma shared_step_loss_is_swapped_prediction_witness :
  exists loss st' qs,
    shared_step example_model None example_hp (example_state true) example_batch
      = Some (loss, st') /\
    length qs = 1%nat /\
    loss = spec_loss example_hp
             (snd (example_model (normalize [[1; 0]; [0; 1]]) (removelast example_batch)))
             1 qs.
Proof.
  assert (Hrun : exists r,
            shared_step example_model None example_hp (example_state true) example_batch
              = Some r) by (eexists; reflexivity).
  destruct Hrun as [[loss st'] Hrun].
  destruct (shared_step_loss_is_swapped_prediction example_model None example_hp
              (example_state true) st' example_batch loss Hrun) as (qs & _ & Hlen & Hloss).
  exists loss, st', qs. split; [exact Hrun|]. split; [exact Hlen|exact Hloss].
Defined.

(** ** Learning-rate schedule *)

Lemma init_lr_schedule_Some hp tr sched :
  init_lr_schedule hp tr = Some sched ->
  (0 <= num_training_batches tr * warmup_epochs hp)%Z /\
  sched =
    map (fun i => start_lr hp + INR i *
                  ((learning_rate hp - start_lr hp) /
                   IZR (num_training_batches tr * warmup_epochs hp - 1)))
        (seq 0 (Z.to_nat (num_training_batches tr * warmup_epochs hp))) ++
    map (cosine_lr hp tr)
        (seq 0 (Z.to_nat (num_training_batches tr * (max_epochs hp - warmup_epochs hp)))).
Proof.
  unfold init_lr_schedule, linspace, arange.
  destruct (_ <? 0)%Z eqn:Hneg; simpl; [discriminate|].
  apply Z.ltb_ge in Hneg. intros [= <-]. now split.
Qed.








(** ** What a step leaves behind in the module *)

Lemma set_nth_length {A} (i : nat) (x : A) (l : list A) :
  length (set_nth i x l) = length l.
Proof.
  revert i. induction l as [|y l IH]; intros [|i]; simpl; auto.
Qed.

Lemma set_nth_same {A} (i : nat) (x : A) (l : list A) :
  (i < length l)%nat -> nth_error (set_nth i x l) i = Some x.
Proof.
  revert i. induction l as [|y l IH]; intros [|i] H; simpl in *; try lia; auto.
  apply IH. lia.
Qed.

Lemma set_nth_other {A} (i k : nat) (x : A) (l : list A) :
  k <> i -> nth_error (set_nth i x l) k = nth_error l k.
Proof.
  revert i k. induction l as [|y l IH]; intros [|i] [|k] H; simpl; auto; try lia.
Qed.

Section StepEffects.

Variable model : mat -> list mat -> mat * mat.
Variable dist : distributed.
Variable hp : hparams.

Lemma assignment_block_inv st i crop_id bs embedding output q st' :
  assignment_block dist hp st i crop_id bs embedding output = Some (q, st') ->
  use_queue_block st i crop_id bs embedding
    (py_slice (bs * crop_id) (bs * (crop_id + 1)) output) <> None /\
  exists out', use_queue_block st i crop_id bs embedding
    (py_slice (bs * crop_id) (bs * (crop_id + 1)) output) = Some (out', st').
Proof.
  intros H. unfold assignment_block in H. inv_bind H. destruct a as [out1 st1].
  injection H as _ <-. rewrite Ha. split; [discriminate|]. now exists out1.
Qed.

Lemma crops_loop_no_queue embedding output bs crops : forall i loss st loss' st',
  queue st = None ->
  crops_loop dist hp embedding output bs crops i loss st = Some (loss', st') ->
  st' = st.
Proof.
  induction crops as [|crop_id rest IH]; intros i loss st loss' st' Hq H.
  - simpl in H. now injection H as _ <-.
  - apply crops_loop_step in H. destruct H as (q & st1 & vs & subloss & Hb & _ & _ & Hrest).
    apply assignment_block_inv in Hb. destruct Hb as [_ [out' Hb]].
    rewrite use_queue_block_no_queue in Hb by exact Hq. injection Hb as _ <-.
    eapply IH; eassumption.
Qed.

Lemma crops_loop_queue embedding output bs crops : forall i loss st loss' st' qu,
  queue st = Some qu ->
  crops_loop dist hp embedding output bs crops i loss st = Some (loss', st') ->
  prototypes_weight st' = prototypes_weight st /\
  exists qu',
    queue st' = Some qu' /\ length qu' = length qu /\
    (forall k, (k < i)%nat -> nth_error qu' k = nth_error qu k) /\
    (forall j crop_id, nth_error crops j = Some crop_id ->
       exists slot slot',
         nth_error qu (i + j) = Some slot /\
         fill_queue slot bs (py_slice (crop_id * bs) ((crop_id + 1) * bs) embedding)
           = Some slot' /\
         nth_error qu' (i + j) = Some slot').
Proof.
  induction crops as [|crop_id rest IH]; intros i loss st loss' st' qu Hq H.
  - simpl in H. injection H as _ <-. split; [reflexivity|].
    exists qu. repeat split; try assumption. intros [|j] c Hj; discriminate.
  - apply crops_loop_step in H. destruct H as (q & st1 & vs & subloss & Hb & _ & _ & Hrest).
    apply assignment_block_inv in Hb. destruct Hb as [_ [out' Hb]].
    destruct (use_queue_block_cases st i crop_id bs embedding _ out' st1 qu Hq Hb)
      as (use & slot & slot' & _ & Hslot & Hfill & Hq1 & Hw & _).
    destruct (IH _ _ _ _ _ _ Hq1 Hrest) as (Hw' & qu' & Hq' & Hlen & Hbelow & Hrestq).
    split; [now rewrite Hw'|].
    assert (Hi : (i < length qu)%nat) by (apply nth_error_Some; congruence).
    exists qu'. split; [exact Hq'|]. split; [now rewrite Hlen, set_nth_length|].
    split.
    + intros k Hk. rewrite Hbelow by lia. apply set_nth_other. lia.
    + intros [|j] c Hj; simpl in Hj.
      * injection Hj as <-. rewrite Nat.add_0_r. exists slot, slot'.
        split; [exact Hslot|]. split; [exact Hfill|].
        rewrite Hbelow by lia. now apply set_nth_same.
      * destruct (Hrestq j c Hj) as (s & s' & Hs & Hf & Hs').
        rewrite set_nth_other in Hs by lia.
        replace (i + S j)%nat with (S i + j)%nat by lia.
        exists s, s'. repeat split; assumption.
Qed.

End StepEffects.

Section Validation.

Variable model : mat -> list mat -> mat * mat.
Variable dist : distributed.
Variable hp : hparams.

(** C10: a validation step is the shared step of training and changes the
    module like a training step does: whenever it returns, the prototype
    weights have been replaced by their row-normalised values; an allocated
    queue has received, in the slot of every assignment crop, the batch's
    embeddings of that crop in front of its shifted content; and the in-use
    latch is set as soon as the first slot's oldest row is nonzero. *)
Theorem validation_step_mutates_module (st st' : swav) (batch : list mat) (loss : R) :
  validation_step model dist hp st batch = Some (loss, st') ->
  let w := normalize (prototypes_weight st) in
  let inputs := removelast batch in
  let embedding := fst (model w inputs) in
  let bs := length (hd [] inputs) in
  shared_step model dist hp st batch = Some (loss, st') /\
  (forall tr r, training_step model dist hp tr st batch = Some r -> r = (loss, st')) /\
  prototypes_weight st' = w /\
  (queue st = None -> queue st' = None) /\
  (forall qu, queue st = Some qu ->
     exists qu', queue st' = Some qu' /\ length qu' = length qu /\
       forall i crop_id, nth_error (crops_for_assign hp) i = Some crop_id ->
         exists slot slot',
           nth_error qu i = Some slot /\
           fill_queue slot bs (py_slice (crop_id * bs) ((crop_id + 1) * bs) embedding)
             = Some slot' /\
           nth_error qu' i = Some slot') /\
  (forall qu crop_id rest slot last,
     queue st = Some qu -> crops_for_assign hp = crop_id :: rest ->
     nth_error qu 0 = Some slot -> last_row slot = Some last ->
     all_zero last = false ->
     use_the_queue st' = Some true).
Proof.
  intros H w inputs embedding bs. unfold validation_step in H.
  split; [exact H|]. split.
  { intros tr r Ht. unfold training_step in Ht. rewrite H in Ht. simpl in Ht.
    inv_bind Ht. inv_bind Ht. now injection Ht as <-. }
  unfold shared_step in H. simpl in H. fold w inputs in H. subst embedding.
  destruct (model w inputs) as [embedding output]. simpl.
  inv_bind H. rename a into x0. inv_bind H. destruct a as [loss1 st1].
  destruct (length (crops_for_assign hp) =? 0)%nat; [discriminate|].
  injection H as _ <-.
  assert (Hbs : bs = length x0).
  { subst bs. destruct inputs; simpl in *; [discriminate|]. now injection Ha as ->. }
  rewrite <- Hbs in Ha0.
  set (st0 := set_prototypes_weight w st) in *.
  split; [|split; [|split]].
  - destruct (queue st) as [qu|] eqn:Hq.
    + now destruct (crops_loop_queue dist hp _ _ _ _ _ _ st0 _ _ qu Hq Ha0) as [-> _].
    + now rewrite (crops_loop_no_queue dist hp _ _ _ _ _ _ st0 _ _ Hq Ha0).
  - intros Hq. now rewrite (crops_loop_no_queue dist hp _ _ _ _ _ _ st0 _ _ Hq Ha0).
  - intros qu Hq.
    destruct (crops_loop_queue dist hp _ _ _ _ _ _ st0 _ _ qu Hq Ha0)
      as (_ & qu' & Hq' & Hlen & _ & Hslots).
    exists qu'. split; [exact Hq'|]. split; [exact Hlen|].
    intros i crop_id Hi. exact (Hslots i crop_id Hi).
  - intros qu crop_id rest slot last Hq Hcrops Hslot Hlast Hz.
    rewrite Hcrops in Ha0. apply crops_loop_step in Ha0.
    destruct Ha0 as (q & st2 & vs & subloss & Hb & _ & _ & Hrest).
    assert (Hl : latched st2).
    { apply assignment_block_inv in Hb. destruct Hb as [_ [out' Hb]].
      destruct (use_queue_block_cases st0 0 crop_id bs embedding _ out' st2 qu Hq Hb)
        as (use & slot0 & slot' & _ & Hs0 & _ & _ & _ & _ & _ & Hcase).
      assert (Heq : Some slot0 = Some slot)
        by (transitivity (nth_error qu 0); [symmetry; exact Hs0|exact Hslot]).
      injection Heq as ->.
      destruct Hcase as [(_ & _ & Hset)|(_ & (last' & Hlast' & Hz') & _)]; [exact Hset|].
      rewrite Hlast in Hlast'. injection Hlast' as <-. congruence. }
    exact (crops_loop_latched dist hp _ _ _ _ _ _ _ _ _ Hl Hrest).
Qed.

End Validation.

Lemma normalize_example_changes :
  normalize [[3; 4]; [0; 2]] <> [[3; 4]; [0; 2]].
Proof.
  unfold normalize, vdiv_scalar. simpl map. intros Heq.
  injection Heq as _ _ _ H2.
  assert (Hn : norm2 [0; 2] = 2).
  { unfold norm2. simpl. replace (0 * 0 + (2 * 2 + 0)) with (2 * 2) by ring.
    apply sqrt_square. lra. }
  rewrite Hn in H2. rewrite Rmax_left in H2; [lra|]. simpl. lra.
Qed.

Lemma validation_step_mutates_module_witness :
  exists loss st',
    validation_step example_model None example_hp example_state_raw example_batch
      = Some (loss, st') /\
    prototypes_weight st' = normalize [[3; 4]; [0; 2]] /\
    prototypes_weight st' <> prototypes_weight example_state_raw /\
    queue example_state_raw = Some [[[1; 0]]] /\
    queue st' = Some [[[0; 1]]] /\
    use_the_queue example_state_raw = Some false /\
    use_the_queue st' = Some true.
Proof.
  assert (Hz : all_zero [1; 0] = false) by (apply all_zero_nonzero_head; lra).
  assert (Hrun : exists r,
            validation_step example_model None example_hp example_state_raw example_batch
              = Some r /\ queue (snd r) = Some [[[0; 1]]]).
  { unfold validation_step, shared_step.
    cbn [example_model removelast example_batch prototypes_weight example_state_raw
         set_prototypes_weight hd_error bind crops_for_assign example_hp crops_loop].
    unfold assignment_block, use_queue_block.
    cbn [queue use_the_queue nth_error set_prototypes_weight example_state_raw bind].
    change (last_row [[1; 0]]) with (Some [1; 0]).
    cbn [bind]. rewrite Hz. cbn [negb bind].
    eexists. split; reflexivity. }
  destruct Hrun as [[loss st'] [Hrun Hq]]. simpl in Hq.
  destruct (validation_step_mutates_module example_model None example_hp
              example_state_raw st' example_batch loss Hrun)
    as (_ & _ & Hw & _ & _ & Hlatch).
  exists loss, st'. split; [exact Hrun|]. split; [exact Hw|].
  split; [rewrite Hw; exact normalize_example_changes|].
  split; [reflexivity|]. split; [exact Hq|]. split; [reflexivity|].
  apply (Hlatch [[[1; 0]]] 0%nat [] [[1; 0]] [1; 0]); try reflexivity. exact Hz.
Defined.

(** * Further properties of the code *)

(** ** Assignment engine: the output rows are probability vectors *)

Lemma div_keepdim0_pos Q s : vpos s -> mpos Q -> mpos (div_keepdim0 Q s).
Proof.
  intros Hs HP. unfold div_keepdim0. apply Forall_map.
  eapply Forall_impl; [|exact HP]. intros row Hrow. now apply vdiv_pos.
Qed.

Lemma transpose_pos K B M :
  (0 < K)%nat -> is_mat K B M -> mpos M -> mpos (transpose M).
Proof.
  intros HK HM HP. unfold transpose. rewrite (is_mat_ncols K B M HK HM).
  apply Forall_map. apply Forall_forall. intros j Hj. apply in_seq in Hj.
  apply (col_pos K B); [assumption|assumption|lia].
Qed.

Lemma vsum_nonneg v : vpos v -> 0 <= vsum v.
Proof.
  intros Hv. induction Hv as [|x v Hx Hv IH]; simpl; lra.
Qed.

Lemma entry_le_vsum v x : vpos v -> In x v -> x <= vsum v.
Proof.
  intros Hv. induction Hv as [|y v Hy Hv IH]; intros Hin; [contradiction|].
  simpl. pose proof (vsum_nonneg v Hv). destruct Hin as [->|Hin].
  - lra.
  - specialize (IH Hin). lra.
Qed.



(** ** Assignment engine: uniform similarities give uniform assignments *)

Lemma vsum_repeat c n : vsum (repeat c n) = INR n * c.
Proof.
  induction n as [|n IH]; [simpl; ring|].
  cbn [repeat vsum fold_right]. fold (vsum (repeat c n)). rewrite IH, S_INR. ring.
Qed.

Lemma map_repeat {A B} (f : A -> B) x n : map f (repeat x n) = repeat (f x) n.
Proof. induction n as [|n IH]; simpl; [reflexivity|now rewrite IH]. Qed.

Lemma map2_repeat {A B C} (f : A -> B -> C) x y n :
  map2 f (repeat x n) (repeat y n) = repeat (f x y) n.
Proof.
  unfold map2. induction n as [|n IH]; simpl; [reflexivity|now rewrite IH].
Qed.

Lemma map2_repeat_l {A B C} (f : A -> B -> C) x (v : list B) :
  map2 f (repeat x (length v)) v = map (f x) v.
Proof.
  unfold map2. induction v as [|y v IH]; simpl; [reflexivity|now rewrite IH].
Qed.

Lemma map_seq_const {A} (x : A) n s : map (fun _ => x) (seq s n) = repeat x n.
Proof.
  revert s. induction n as [|n IH]; intros s; simpl; [reflexivity|now rewrite IH].
Qed.

Lemma ncols_const K B c : (0 < K)%nat -> ncols (const_mat K B c) = B.
Proof.
  intros HK. unfold ncols, const_mat. destruct K; [lia|]. simpl. apply repeat_length.
Qed.

Lemma shape_const K B c : (0 < K)%nat -> shape (const_mat K B c) = (K, B).
Proof.
  intros HK. unfold shape, nrows. rewrite ncols_const by exact HK.
  unfold const_mat. now rewrite repeat_length.
Qed.

Lemma col_const K B c j : (j < B)%nat -> col j (const_mat K B c) = repeat c K.
Proof.
  intros Hj. unfold col, const_mat. rewrite map_repeat. f_equal.
  apply nth_repeat_lt. exact Hj.
Qed.

Lemma sum_dim0_const K B c :
  (0 < K)%nat -> sum_dim0 (const_mat K B c) = repeat (INR K * c) B.
Proof.
  intros HK. unfold sum_dim0. rewrite ncols_const by exact HK.
  rewrite <- (map_seq_const (INR K * c) B 0%nat).
  apply map_ext_in. intros j Hj. apply in_seq in Hj.
  rewrite col_const by lia. apply vsum_repeat.
Qed.

Lemma sum_dim1_const K B c : sum_dim1 (const_mat K B c) = repeat (INR B * c) K.
Proof. unfold sum_dim1, const_mat. now rewrite map_repeat, vsum_repeat. Qed.

Lemma sum_all_const K B c : sum_all (const_mat K B c) = INR K * (INR B * c).
Proof. unfold sum_all. fold (sum_dim1 (const_mat K B c)). now rewrite sum_dim1_const, vsum_repeat. Qed.

Lemma mdiv_scalar_const K B c s :
  mdiv_scalar (const_mat K B c) s = const_mat K B (c / s).
Proof. unfold mdiv_scalar, const_mat, vdiv_scalar. now rewrite !map_repeat. Qed.

Lemma mul_unsqueeze1_const K B c s :
  mul_unsqueeze1 (const_mat K B c) (repeat s K) = const_mat K B (c * s).
Proof.
  unfold mul_unsqueeze1, const_mat. rewrite map2_repeat. now rewrite map_repeat.
Qed.

Lemma mul_unsqueeze0_const K B c s :
  mul_unsqueeze0 (const_mat K B c) (repeat s B) = const_mat K B (c * s).
Proof.
  unfold mul_unsqueeze0, const_mat. rewrite map_repeat. now rewrite map2_repeat.
Qed.

Lemma div_keepdim0_const K B c s :
  div_keepdim0 (const_mat K B c) (repeat s B) = const_mat K B (c / s).
Proof.
  unfold div_keepdim0, const_mat, vdiv. rewrite map_repeat. now rewrite map2_repeat.
Qed.

Lemma transpose_const K B c :
  (0 < K)%nat -> transpose (const_mat K B c) = const_mat B K c.
Proof.
  intros HK. unfold transpose. rewrite ncols_const by exact HK.
  unfold const_mat at 2. rewrite <- (map_seq_const (repeat c K) B 0%nat).
  apply map_ext_in. intros j Hj. apply in_seq in Hj. apply col_const. lia.
Qed.

Lemma ones_div n d : vdiv_scalar (ones n) d = repeat (1 / d) n.
Proof. unfold vdiv_scalar, ones. now rewrite map_repeat. Qed.

Lemma vdiv_repeat a b n : vdiv (repeat a n) (repeat b n) = repeat (a / b) n.
Proof. unfold vdiv. apply map2_repeat. Qed.

Lemma iteration_const K B c :
  (0 < K)%nat -> (0 < B)%nat -> 0 < c ->
  let r := vdiv_scalar (ones K) (INR K) in
  let cc := vdiv_scalar (ones B) (INR (1 * B)) in
  let Q1 := mul_unsqueeze1 (const_mat K B c) (vdiv r (sum_dim1 (const_mat K B c))) in
  mul_unsqueeze0 Q1 (vdiv cc (sum_dim0 Q1)) = const_mat K B (1 / (INR K * INR B)).
Proof.
  intros HK HB Hc r cc Q1. subst r cc Q1.
  pose proof (INR_pos K HK) as HKr. pose proof (INR_pos B HB) as HBr.
  rewrite Nat.mul_1_l, !ones_div, sum_dim1_const.
  rewrite vdiv_repeat, mul_unsqueeze1_const.
  rewrite sum_dim0_const by exact HK.
  rewrite vdiv_repeat, mul_unsqueeze0_const.
  f_equal. field. repeat split; lra.
Qed.

Lemma distributed_iters_const K B n : forall it c,
  (0 < K)%nat -> (0 < B)%nat -> 0 < c ->
  exists c', 0 < c' /\
    Sinkhorn.distributed_iters None (vdiv_scalar (ones K) (INR K))
      (vdiv_scalar (ones B) (INR (1 * B))) it n (const_mat K B c) = const_mat K B c'.
Proof.
  induction n as [|n IH]; intros it c HK HB Hc.
  - exists c. now split.
  - cbn [Sinkhorn.distributed_iters].
    rewrite (iteration_const K B c HK HB Hc). apply IH; try assumption.
    apply Rdiv_lt_0_compat; [lra|].
    apply Rmult_lt_0_compat; now apply INR_pos.
Qed.

(** Up to floating-point rounding, uniform similarities give uniform
    assignments: computed in exact real arithmetic on one worker, a constant
    positive K×B input assigns every sample to every prototype with weight
    1/K, whatever the number of iterations. *)
Theorem distributed_sinkhorn_uniform (K B : nat) (c : R) (N : nat) :
  (0 < K)%nat -> (0 < B)%nat -> 0 < c ->
  Sinkhorn.distributed_sinkhorn None (const_mat K B c) N = const_mat B K (1 / INR K).
Proof.
  intros HK HB Hc. unfold Sinkhorn.distributed_sinkhorn.
  pose proof (INR_pos K HK) as HKr. pose proof (INR_pos B HB) as HBr.
  rewrite sum_all_const, mdiv_scalar_const.
  set (c0 := c / (INR K * (INR B * c))).
  assert (Hc0 : 0 < c0).
  { subst c0. apply Rdiv_lt_0_compat; [lra|].
    apply Rmult_lt_0_compat; [lra|]. now apply Rmult_lt_0_compat. }
  rewrite (shape_const K B c0 HK). cbv beta iota zeta.
  destruct (distributed_iters_const K B N 0%nat c0 HK HB Hc0) as (c' & Hc' & ->).
  rewrite sum_dim0_const, div_keepdim0_const, transpose_const by exact HK.
  f_equal. field. split; lra.
Qed.

Lemma distributed_sinkhorn_uniform_witness :
  Sinkhorn.distributed_sinkhorn None (const_mat 4 2 3) 3 = const_mat 2 4 (1 / INR 4).
Proof.
  apply distributed_sinkhorn_uniform; try lia. lra.
Defined.

(** In [float32] the weight is 1/K up to rounding only: for the 3×3 matrix
    of ones the engine returns [11184810 * 2^-25] everywhere, one unit in the
    last place below the [float32] nearest to 1/3. *)
Lemma float32_uniform_is_rounded :
  Rounded.distributed_sinkhorn float32_arithmetic None
    (repeat (repeat (float32_of_Z 1) 3) 3) 0 =
    repeat (repeat (S754_finite false 11184810 (-25)) 3) 3 /\
  SFdiv 24 128 (float32_of_Z 1) (float32_of_Z 3) = S754_finite false 11184811 (-25).
Proof. split; vm_compute; reflexivity. Qed.

(** ** Feature queue: what a slot holds after any number of insertions *)

Lemma firstn_app_firstn {A} (n m : nat) (l1 l2 : list A) :
  (n <= length l1 + m)%nat ->
  firstn n (l1 ++ firstn m l2) = firstn n (l1 ++ l2).
Proof.
  intros H. rewrite !firstn_app, firstn_firstn.
  f_equal. f_equal. lia.
Qed.

(** A slot of capacity C, whatever C is as long as a batch fits, holds after
    any run of insertions the C most recent rows: the inserted batches,
    newest first, followed by what is left of the original content.  The
    capacity need not be a multiple of the batch size; the oldest batch is
    then cut. *)
Theorem queue_holds_most_recent_rows (bs : nat) (embs : list mat) (slot : mat) :
  (0 < bs)%nat -> (bs <= length slot)%nat ->
  Forall (fun emb => length emb = bs) embs ->
  fill_queue_many slot bs embs =
    Some (firstn (length slot) (concat (rev embs) ++ slot)).
Proof.
  intros Hbs. revert slot.
  induction embs as [|emb rest IH]; intros slot Hle Hall.
  - simpl. now rewrite firstn_all.
  - inversion Hall as [|e l He Hrest]; subst e l.
    cbn [fill_queue_many]. rewrite fill_queue_shift by assumption. cbn [bind].
    rewrite IH; [|rewrite fill_queue_length by assumption; assumption|assumption].
    rewrite fill_queue_length by assumption. f_equal.
    cbn [rev]. rewrite concat_app. cbn [concat]. rewrite app_nil_r.
    rewrite app_assoc, firstn_app_firstn; [reflexivity|].
    rewrite length_app, He. lia.
Qed.

Lemma queue_holds_most_recent_rows_witness :
  fill_queue_many [[1; 1]; [2; 2]; [3; 3]] 2 [[[4; 4]; [5; 5]]; [[6; 6]; [7; 7]]] =
    Some [[6; 6]; [7; 7]; [4; 4]].
Proof.
  rewrite (queue_holds_most_recent_rows 2); [reflexivity|lia|simpl; lia|].
  repeat constructor.
Defined.

(** A batch that has more rows than the slot has capacity cannot be
    inserted: the second slice assignment has mismatching shapes. *)
Theorem queue_insert_larger_than_capacity_fails (slot : mat) (bs : nat) (emb : mat) :
  (1 <= length slot)%nat -> (length slot < bs)%nat -> length emb = bs ->
  fill_queue slot bs emb = None.
Proof.
  intros H1 Hlt Hemb. unfold fill_queue, assign_from, assign_to.
  rewrite slice_to_neg_pos by lia.
  replace (length slot - bs)%nat with 0%nat by lia.
  rewrite skipn_all2 by lia. cbn [firstn length broadcast_rows Nat.eqb bind].
  rewrite app_nil_r, firstn_firstn, Nat.min_id.
  rewrite firstn_all2 by lia.
  unfold broadcast_rows.
  replace (length emb =? length slot)%nat with false
    by (symmetry; apply Nat.eqb_neq; lia).
  destruct emb as [|x [|y emb]]; simpl in *; try reflexivity; lia.
Qed.

Lemma queue_insert_larger_than_capacity_fails_witness :
  fill_queue [[1; 1]] 2 [[4; 4]; [5; 5]] = None.
Proof.
  apply queue_insert_larger_than_capacity_fails; simpl; lia.
Defined.

(** ** Feature queue: a freshly allocated queue is consulted only once full *)

Lemma all_zero_zeros (D : nat) : all_zero (repeat 0 D) = true.
Proof.
  unfold all_zero. induction D as [|D IH]; simpl; [reflexivity|].
  rewrite IH. unfold Req_bool. destruct (Req_dec_T 0 0) as [_|H]; [reflexivity|].
  now contradiction H.
Qed.

Lemma last_row_app {A} (l1 l2 : list A) :
  l2 <> [] -> last_row (l1 ++ l2) = last_row l2.
Proof.
  intros Hne. unfold last_row. rewrite length_app.
  assert (0 < length l2)%nat by (destruct l2; [congruence|simpl; lia]).
  rewrite nth_error_app2 by lia. f_equal. lia.
Qed.

Lemma last_row_repeat {A} (x : A) (n : nat) :
  (0 < n)%nat -> last_row (repeat x n) = Some x.
Proof.
  intros Hn. unfold last_row. rewrite repeat_length.
  apply nth_error_repeat. lia.
Qed.

Lemma firstn_repeat_le {A} (x : A) (k n : nat) :
  (k <= n)%nat -> firstn k (repeat x n) = repeat x k.
Proof.
  revert n. induction k as [|k IH]; intros n Hk; [reflexivity|].
  destruct n as [|n]; [lia|]. simpl. f_equal. apply IH. lia.
Qed.

(** After [on_train_epoch_start] has allocated a slot of C zero rows, as long
    as the batches inserted so far cover fewer than C rows the oldest row is
    still zero: with the latch unset the block of that slot hands the
    similarity rows on unchanged and leaves the latch unset. *)
Theorem fresh_queue_is_not_consulted_until_full
    (C D bs : nat) (embs : list mat) (st st' : swav) (qu : list mat)
    (i crop_id : nat) (embedding out out' : mat) :
  (0 < bs)%nat -> Forall (fun emb => length emb = bs) embs ->
  (length embs * bs < C)%nat ->
  exists slot,
    fill_queue_many (repeat (repeat 0 D) C) bs embs = Some slot /\
    last_row slot = Some (repeat 0 D) /\
    (queue st = Some qu -> nth_error qu i = Some slot ->
     use_the_queue st = Some false ->
     use_queue_block st i crop_id bs embedding out = Some (out', st') ->
     out' = out /\ use_the_queue st' = Some false).
Proof.
  intros Hbs Hall Hlt.
  set (zeros := repeat (repeat 0 D) C).
  assert (HC : length zeros = C) by apply repeat_length.
  exists (concat (rev embs) ++ firstn (length zeros - length embs * bs) zeros).
  split; [apply fill_queue_many_shift; [assumption|assumption|lia]|].
  assert (Hlast : last_row (concat (rev embs) ++
                            firstn (length zeros - length embs * bs) zeros)
                  = Some (repeat 0 D)).
  { rewrite HC. subst zeros. rewrite firstn_repeat_le by lia.
    rewrite last_row_app.
    - apply last_row_repeat. lia.
    - destruct (C - length embs * bs)%nat eqn:E; [lia|discriminate]. }
  split; [exact Hlast|].
  intros Hq Hslot Huse Hrun.
  destruct (use_queue_block_cases st i crop_id bs embedding out out' st' qu Hq Hrun)
    as (use & slot0 & slot' & Hu & Hs0 & _ & _ & _ & _ & _ & Hcase).
  rewrite Hslot in Hs0. injection Hs0 as <-.
  rewrite Huse in Hu. injection Hu as <-.
  destruct Hcase as [([Ht|(last & Hl & Hz)] & _)|(_ & _ & Hout & Hlatch)].
  - discriminate.
  - rewrite Hlast in Hl. injection Hl as <-. rewrite all_zero_zeros in Hz. discriminate.
  - now split.
Qed.

Lemma fresh_queue_is_not_consulted_until_full_witness :
  exists slot,
    fill_queue_many (repeat (repeat 0 2) 3) 1 [[[1; 0]]; [[0; 1]]] = Some slot /\
    last_row slot = Some (repeat 0 2).
Proof.
  destruct (fresh_queue_is_not_consulted_until_full 3 2 1 [[[1; 0]]; [[0; 1]]]
              (example_state false) (example_state false) [] 0 0 [] [] [])
    as (slot & Hfill & Hlast & _).
  - lia.
  - repeat constructor.
  - simpl. lia.
  - exists slot. now split.
Defined.

(** ** Feature queue: the buffer is never resized *)

Lemma broadcast_rows_length {A} (n : nat) (src s : list A) :
  broadcast_rows n src = Some s -> length s = n.
Proof.
  unfold broadcast_rows. destruct (length src =? n)%nat eqn:E.
  - intros [= <-]. now apply Nat.eqb_eq.
  - destruct src as [|x [|y src]]; try discriminate.
    intros [= <-]. apply repeat_length.
Qed.

Lemma fill_queue_keeps_capacity (slot : mat) (bs : nat) (emb slot' : mat) :
  fill_queue slot bs emb = Some slot' -> length slot' = length slot.
Proof.
  intros H. unfold fill_queue in H. inv_bind H. rename a into slot1.
  unfold assign_from in Ha. inv_bind Ha. injection Ha as <-.
  apply broadcast_rows_length in Ha0.
  unfold assign_to in H. inv_bind H. injection H as <-.
  apply broadcast_rows_length in Ha.
  assert (H1 : length (firstn bs slot ++ a) = length slot).
  { rewrite length_app, Ha0, length_firstn, length_skipn. lia. }
  rewrite length_app, Ha, length_firstn, length_skipn. lia.
Qed.

Lemma queue_shape_set_nth (qu : list mat) (i : nat) (slot slot' : mat) :
  nth_error qu i = Some slot -> length slot' = length slot ->
  queue_shape (set_nth i slot' qu) = queue_shape qu.
Proof.
  revert i. induction qu as [|s qu IH]; intros [|i] Hn Hl; simpl in *; try discriminate.
  - injection Hn as ->. now rewrite Hl.
  - f_equal. now apply IH.
Qed.

Section QueueShape.

Variable model : mat -> list mat -> mat * mat.
Variable dist : distributed.
Variable hp : hparams.

Lemma crops_loop_queue_shape embedding output bs crops : forall i loss st loss' st' qu,
  queue st = Some qu ->
  crops_loop dist hp embedding output bs crops i loss st = Some (loss', st') ->
  exists qu', queue st' = Some qu' /\ queue_shape qu' = queue_shape qu.
Proof.
  induction crops as [|crop_id rest IH]; intros i loss st loss' st' qu Hq H.
  - simpl in H. injection H as _ <-. now exists qu.
  - apply crops_loop_step in H. destruct H as (q & st1 & vs & subloss & Hb & _ & _ & Hrest).
    apply assignment_block_inv in Hb. destruct Hb as [_ [out' Hb]].
    destruct (use_queue_block_cases st i crop_id bs embedding _ out' st1 qu Hq Hb)
      as (use & slot & slot' & _ & Hslot & Hfill & Hq1 & _).
    destruct (IH _ _ _ _ _ _ Hq1 Hrest) as (qu' & Hq' & Hshape).
    exists qu'. split; [exact Hq'|]. rewrite Hshape.
    apply (queue_shape_set_nth qu i slot slot' Hslot).
    now apply fill_queue_keeps_capacity in Hfill.
Qed.

Lemma shared_step_queue_shape st batch loss st' qu :
  queue st = Some qu -> shared_step model dist hp st batch = Some (loss, st') ->
  exists qu', queue st' = Some qu' /\ queue_shape qu' = queue_shape qu.
Proof.
  intros Hq H. unfold shared_step in H. destruct (model _ _) as [embedding output].
  inv_bind H. inv_bind H. destruct a0 as [loss1 st1].
  destruct (length (crops_for_assign hp) =? 0)%nat; [discriminate|].
  injection H as _ <-. eapply crops_loop_queue_shape; [|exact Ha0]. exact Hq.
Qed.

Lemma run_hook_queue_shape st h st' qu :
  queue st = Some qu -> run_hook model dist hp st h = Some st' ->
  exists qu', queue st' = Some qu' /\ queue_shape qu' = queue_shape qu.
Proof.
  intros Hq H. destruct h as [tr|tr batch|tr|batch|]; simpl in H.
  - unfold on_train_epoch_start in H. inv_bind H. inv_bind H. injection H as <-.
    simpl. exists qu. split; [|reflexivity].
    destruct (0 <? queue_length hp)%nat; [|now injection Ha0 as <-].
    inv_bind Ha0.
    destruct (epoch_queue_starts hp <=? current_epoch tr)%Z; [|now injection Ha0 as <-].
    simpl in Ha0. rewrite Hq in Ha0. now injection Ha0 as <-.
  - inv_bind H. destruct a as [loss st1]. injection H as <-.
    unfold training_step in Ha. inv_bind Ha. destruct a as [loss2 st2].
    inv_bind Ha. inv_bind Ha. injection Ha as _ <-.
    eapply shared_step_queue_shape; eassumption.
  - injection H as <-. exists qu. split; [|reflexivity].
    unfold on_after_backward.
    destruct (current_epoch tr <? freeze_prototypes_epochs hp)%Z; exact Hq.
  - inv_bind H. destruct a as [loss st1]. injection H as <-.
    eapply shared_step_queue_shape; eassumption.
  - injection H as <-. now exists qu.
Qed.

(** Once a queue is there (allocated at an epoch start or loaded), every run
    of hooks that goes through leaves a queue with the same number of slots
    and the same capacity in every slot: no step and no epoch start
    reallocates, drops or resizes it. *)
Theorem queue_is_never_resized (hs : list hook) : forall (st st' : swav) (qu : list mat),
  queue st = Some qu -> run_hooks model dist hp st hs = Some st' ->
  exists qu', queue st' = Some qu' /\ queue_shape qu' = queue_shape qu.
Proof.
  induction hs as [|h hs IH]; intros st st' qu Hq H; simpl in H.
  - injection H as <-. now exists qu.
  - inv_bind H. rename a into st1.
    destruct (run_hook_queue_shape st h st1 qu Hq Ha) as (qu1 & Hq1 & Hs1).
    destruct (IH st1 st' qu1 Hq1 H) as (qu' & Hq' & Hs').
    exists qu'. split; [exact Hq'|]. now rewrite Hs'.
Qed.

End QueueShape.

Lemma queue_is_never_resized_witness :
  exists st' qu',
    run_hooks example_model None example_hp (example_state true)
      [ValidationStep example_batch; OnAfterBackward example_trainer;
       OnTrainEpochEnd; ValidationStep example_batch] = Some st' /\
    queue st' = Some qu' /\ queue_shape qu' = [1%nat].
Proof.
  assert (Hrun : exists st',
            run_hooks example_model None example_hp (example_state true)
              [ValidationStep example_batch; OnAfterBackward example_trainer;
               OnTrainEpochEnd; ValidationStep example_batch] = Some st')
    by (eexists; reflexivity).
  destruct Hrun as [st' Hrun].
  destruct (queue_is_never_resized example_model None example_hp _
              (example_state true) st' [[[1; 0]]] eq_refl Hrun) as (qu' & Hq' & Hs).
  exists st', qu'. split; [exact Hrun|]. split; [exact Hq'|exact Hs].
Defined.

(** ** Shared step: the prototype vectors it computes with *)


Lemma vsum_squares_nonneg (v : vec) : 0 <= vsum (map (fun x => x * x) v).
Proof.
  induction v as [|x v IH]; simpl; [lra|]. pose proof (Rle_0_sqr x) as H.
  unfold Rsqr in H. lra.
Qed.




Section SharedStepFacts.

Variable model : mat -> list mat -> mat * mat.
Variable dist : distributed.
Variable hp : hparams.

Lemma shared_step_inv st batch loss st' :
  shared_step model dist hp st batch = Some (loss, st') ->
  exists x0 loss1,
    hd_error (removelast batch) = Some x0 /\
    crops_for_assign hp <> [] /\
    crops_loop dist hp
      (fst (model (normalize (prototypes_weight st)) (removelast batch)))
      (snd (model (normalize (prototypes_weight st)) (removelast batch)))
      (length x0) (crops_for_assign hp) 0 0
      (set_prototypes_weight (normalize (prototypes_weight st)) st) = Some (loss1, st') /\
    loss = loss1 / INR (length (crops_for_assign hp)).
Proof.
  intros H. unfold shared_step in H. simpl in H.
  destruct (model _ _) as [embedding output]. simpl.
  inv_bind H. rename a into x0. inv_bind H. destruct a as [loss1 st1].
  destruct (crops_for_assign hp) as [|c cs] eqn:Hc; [discriminate|].
  simpl in H. injection H as <- <-.
  exists x0, loss1. repeat split; [assumption|discriminate|assumption].
Qed.



(** While no queue is allocated a shared step changes nothing in the module
    but the prototype weights: latch, schedule and gradients are as before
    and the queue stays absent. *)
Theorem shared_step_without_queue_frame (st st' : swav) (batch : list mat) (loss : R) :
  queue st = None ->
  shared_step model dist hp st batch = Some (loss, st') ->
  st' = set_prototypes_weight (normalize (prototypes_weight st)) st.
Proof.
  intros Hq H. apply shared_step_inv in H.
  destruct H as (x0 & loss1 & _ & _ & Hloop & _).
  eapply (crops_loop_no_queue dist hp); [|exact Hloop]. exact Hq.
Qed.

(** A shared step that returns had a non-empty list of assignment crops, all
    of them crop ids below the total crop count, and a batch with at least
    one crop besides the trailing view; otherwise the step raises
    (ZeroDivisionError, IndexError from [np.delete], IndexError from
    [inputs[0]]). *)
Theorem shared_step_requirements (st : swav) (batch : list mat) (r : R * swav) :
  shared_step model dist hp st batch = Some r ->
  crops_for_assign hp <> [] /\
  Forall (fun crop_id => (crop_id < total_crops hp)%nat) (crops_for_assign hp) /\
  (2 <= length batch)%nat.
Proof.
  destruct r as [loss st']. intros H. apply shared_step_inv in H.
  destruct H as (x0 & loss1 & Hhd & Hne & Hloop & _).
  split; [exact Hne|]. split.
  - apply crops_loop_spec in Hloop. now destruct Hloop as (qs & _ & _ & Hall & _).
  - destruct batch as [|b1 [|b2 batch]]; simpl in *; try discriminate. lia.
Qed.

End SharedStepFacts.


Lemma shared_step_without_queue_frame_witness :
  exists loss st',
    shared_step example_model None example_hp (set_queue None (example_state true))
      example_batch = Some (loss, st') /\
    st' = set_prototypes_weight (normalize [[1; 0]; [0; 1]])
            (set_queue None (example_state true)).
Proof.
  assert (Hrun : exists r,
            shared_step example_model None example_hp (set_queue None (example_state true))
              example_batch = Some r) by (eexists; reflexivity).
  destruct Hrun as [[loss st'] Hrun]. exists loss, st'. split; [exact Hrun|].
  apply (shared_step_without_queue_frame example_model None example_hp
           (set_queue None (example_state true)) st' example_batch loss);
    [reflexivity|exact Hrun].
Defined.

Lemma shared_step_requirements_witness :
  exists r,
    shared_step example_model None example_hp (example_state true) example_batch
      = Some r /\
    crops_for_assign example_hp <> [] /\
    Forall (fun crop_id => (crop_id < total_crops example_hp)%nat)
      (crops_for_assign example_hp) /\
    (2 <= length example_batch)%nat.
Proof.
  assert (Hrun : exists r,
            shared_step example_model None example_hp (example_state true) example_batch
              = Some r) by (eexists; reflexivity).
  destruct Hrun as [r Hrun]. exists r. split; [exact Hrun|].
  exact (shared_step_requirements _ _ _ _ _ _ Hrun).
Defined.

(** ** Shared step: the loss is not negative *)

Lemma distributed_sinkhorn_pos (K B : nat) (Q : mat) (N : nat) :
  (0 < K)%nat -> (0 < B)%nat -> is_mat K B Q -> mpos Q ->
  mpos (Sinkhorn.distributed_sinkhorn None Q N).
Proof.
  intros HK HB HM HP.
  destruct (distributed_loop_output K B Q N HK HB HM HP) as (Qf & HMf & HPf & ->).
  assert (Hs : length (sum_dim0 Qf) = B)
    by now rewrite sum_dim0_length, (is_mat_ncols K B Qf HK HMf).
  apply (transpose_pos K B); [exact HK| |].
  - now apply div_keepdim0_is_mat.
  - apply div_keepdim0_pos; [|exact HPf]. now apply (sum_dim0_pos K B).
Qed.

Lemma exp_div_pos (out : mat) (eps : R) : mpos (exp_div out eps).
Proof.
  unfold exp_div. apply Forall_map. apply Forall_forall. intros row _.
  apply Forall_map. apply Forall_forall. intros x _. apply exp_pos.
Qed.

Lemma normalize_is_mat K D w : is_mat K D w -> is_mat K D (normalize w).
Proof.
  intros [HL HR]. split; unfold normalize; [now rewrite length_map|].
  apply Forall_map. eapply Forall_impl; [|exact HR].
  intros v Hv. simpl in *. unfold vdiv_scalar. now rewrite length_map.
Qed.

Lemma softmax_row_probability (v : vec) : Forall is_probability (softmax_row v).
Proof.
  unfold softmax_row, vdiv_scalar.
  assert (Hpos : vpos (map exp v)).
  { apply Forall_map. apply Forall_forall. intros x _. apply exp_pos. }
  apply Forall_map. apply Forall_forall. intros x Hx.
  pose proof (proj1 (Forall_forall _ _) Hpos x Hx) as Hx0. simpl in Hx0.
  pose proof (entry_le_vsum _ x Hpos Hx) as Hle.
  assert (HS : 0 < vsum (map exp v)) by lra.
  split.
  - now apply Rdiv_lt_0_compat.
  - apply Rmult_le_reg_r with (vsum (map exp v)); [exact HS|].
    unfold Rdiv. rewrite Rmult_assoc, Rinv_l by lra. lra.
Qed.

Lemma ln_probability (p : R) : is_probability p -> ln p <= 0.
Proof.
  intros [H0 H1]. rewrite <- ln_1. destruct H1 as [Hlt | ->]; [|lra].
  left. now apply ln_increasing.
Qed.

Lemma vsum_nonpos (v : vec) : Forall (fun x => x <= 0) v -> vsum v <= 0.
Proof. induction 1 as [|x v Hx Hv IH]; simpl; lra. Qed.

Lemma vsum_nonneg_all (v : vec) : Forall (fun x => 0 <= x) v -> 0 <= vsum v.
Proof. induction 1 as [|x v Hx Hv IH]; simpl; lra. Qed.

Lemma spec_cross_entropy_nonneg hp q output bs v :
  mpos q -> 0 <= spec_cross_entropy hp q output bs v.
Proof.
  intros Hq. unfold spec_cross_entropy, mean.
  set (p := softmax _).
  assert (Hrows : Forall (fun x => x <= 0) (sum_dim1 (mmul q (mlog p)))).
  { unfold sum_dim1, mmul. apply Forall_map.
    apply (Forall_map2 vpos (Forall (fun x => x <= 0))); [|exact Hq|].
    - intros a b Ha Hb. apply vsum_nonpos.
      apply (Forall_map2 (fun x => 0 < x) (fun x => x <= 0)); [|exact Ha|exact Hb].
      intros x y Hx Hy. nra.
    - unfold mlog. apply Forall_map. subst p. unfold softmax. apply Forall_map.
      apply Forall_forall. intros row _. apply Forall_map.
      eapply Forall_impl; [|apply softmax_row_probability].
      intros x Hx. now apply ln_probability. }
  apply vsum_nonpos in Hrows.
  pose proof (pos_INR (length (sum_dim1 (mmul q (mlog p))))) as Hn.
  destruct Hn as [Hn|Hn].
  - assert (vsum (sum_dim1 (mmul q (mlog p))) /
            INR (length (sum_dim1 (mmul q (mlog p)))) <= 0); [|lra].
    apply Rmult_le_reg_r with (INR (length (sum_dim1 (mmul q (mlog p))))); [exact Hn|].
    unfold Rdiv. rewrite Rmult_assoc, Rinv_l by lra. lra.
  - rewrite <- Hn. unfold Rdiv. rewrite Rinv_0. lra.
Qed.

Section LossSign.

Variable model : mat -> list mat -> mat * mat.
Variable hp : hparams.
Variables bs Kp D : nat.
Hypothesis Hbs : (0 < bs)%nat.
Hypothesis HKp : (0 < Kp)%nat.
Hypothesis HD : (0 < D)%nat.

Lemma assignment_block_pos st i crop_id embedding output q st' :
  is_mat Kp D (prototypes_weight st) ->
  Forall (fun row => length row = Kp) output ->
  (bs * (crop_id + 1) <= length output)%nat ->
  assignment_block None hp st i crop_id bs embedding output = Some (q, st') ->
  mpos q /\ prototypes_weight st' = prototypes_weight st.
Proof.
  intros HW Hout Hlen H. unfold assignment_block in H. inv_bind H.
  destruct a as [out1 st1]. injection H as <- <-.
  set (out := py_slice (bs * crop_id) (bs * (crop_id + 1)) output) in *.
  assert (Hout_mat : is_mat bs Kp out).
  { split; [subst out; rewrite py_slice_length by exact Hlen; nia|].
    subst out. now apply py_slice_Forall. }
  assert (Hfed : (exists n, (0 < n)%nat /\ is_mat n Kp out1) /\
                 prototypes_weight st1 = prototypes_weight st).
  { destruct (queue st) as [qu|] eqn:Hq.
    - destruct (use_queue_block_cases st i crop_id bs embedding out out1 st1 qu Hq Ha)
        as (use & slot & slot' & _ & _ & _ & _ & Hw & _ & _ & Hcase).
      split; [|exact Hw].
      destruct Hcase as [(_ & -> & _)|(_ & _ & -> & _)].
      + exists (length slot + bs)%nat. split; [lia|]. split.
        * unfold cat. rewrite length_app. destruct Hout_mat as [-> _].
          f_equal. unfold mm. apply length_map.
        * unfold cat. apply Forall_app. split; [|now destruct Hout_mat].
          destruct (mm_is_mat slot (transpose (prototypes_weight st))) as [_ HR].
          now rewrite (transpose_ncols Kp D) in HR.
      + exists bs. now split.
    - rewrite use_queue_block_no_queue in Ha by exact Hq. injection Ha as <- <-.
      split; [|reflexivity]. exists bs. now split. }
  destruct Hfed as [(n & Hn & Hmat) Hw]. split; [|exact Hw].
  rewrite slice_from_neg_pos by exact Hbs. apply Forall_skipn_own.
  unfold get_assignments. apply (distributed_sinkhorn_pos Kp n); try assumption.
  - apply (transpose_is_mat n Kp); [exact Hn|]. now apply exp_div_is_mat.
  - apply (transpose_pos n Kp); [exact Hn| |apply exp_div_pos].
    now apply exp_div_is_mat.
Qed.

Lemma assignment_pass_pos embedding output crops : forall i st qs st',
  is_mat Kp D (prototypes_weight st) ->
  Forall (fun row => length row = Kp) output ->
  Forall (fun crop_id => (bs * (crop_id + 1) <= length output)%nat) crops ->
  assignment_pass None hp embedding output bs crops i st = Some (qs, st') ->
  Forall mpos qs.
Proof.
  induction crops as [|crop_id rest IH]; intros i st qs st' HW Hout Hall H.
  - simpl in H. injection H as <- _. constructor.
  - simpl in H. inv_bind H. destruct a as [q st1].
    inv_bind H. destruct a as [qs1 st2]. injection H as <- _.
    inversion Hall as [|c l Hc Hrest]; subst c l.
    destruct (assignment_block_pos _ _ _ _ _ _ _ HW Hout Hc Ha) as [Hq Hw].
    constructor; [exact Hq|].
    eapply IH; [|exact Hout|exact Hrest|exact Ha0]. now rewrite Hw.
Qed.

(** On one worker, with well-shaped tensors (Kp prototypes of dimension D,
    one row of Kp logits per sample of every crop), a positive batch size,
    at least two crops and non-zero temperature and epsilon, the loss a
    shared step returns is not negative. *)
Theorem shared_step_loss_is_nonnegative (st st' : swav) (batch : list mat) (loss : R) :
  0 < temperature hp -> 0 < epsilon hp -> (2 <= total_crops hp)%nat ->
  is_mat Kp D (prototypes_weight st) ->
  bs = length (hd [] (removelast batch)) ->
  is_mat (total_crops hp * bs) Kp
    (snd (model (normalize (prototypes_weight st)) (removelast batch))) ->
  shared_step model None hp st batch = Some (loss, st') ->
  0 <= loss.
Proof.
  intros _ _ Htotal HW Hbs_eq Hout H.
  apply shared_step_inv in H. destruct H as (x0 & loss1 & Hhd & Hne & Hloop & ->).
  assert (Hx0 : length x0 = bs).
  { rewrite Hbs_eq. destruct (removelast batch); simpl in *; [discriminate|].
    now injection Hhd as ->. }
  rewrite Hx0 in Hloop.
  apply crops_loop_spec in Hloop.
  destruct Hloop as (qs & Hpass & _ & Hall & ->).
  set (output := snd (model (normalize (prototypes_weight st)) (removelast batch))) in *.
  assert (Hqs : Forall mpos qs).
  { eapply (assignment_pass_pos _ output (crops_for_assign hp) 0%nat
              (set_prototypes_weight (normalize (prototypes_weight st)) st));
      [| |  |exact Hpass].
    - simpl. now apply normalize_is_mat.
    - now destruct Hout.
    - eapply Forall_impl; [|exact Hall]. intros c Hc. simpl in Hc.
      destruct Hout as [-> _]. nia. }
  assert (Hsum : 0 <= vsum (map2 (spec_subloss hp output bs) (crops_for_assign hp) qs)).
  { apply vsum_nonneg_all.
    apply (Forall_map2 (fun _ => True) mpos); [| |exact Hqs].
    - intros c q _ Hq. unfold spec_subloss.
      assert (Hnum : 0 <= vsum (map (spec_cross_entropy hp q output bs)
                (filter (fun v => negb (v =? c)%nat) (seq 0 (total_crops hp))))).
      { apply vsum_nonneg_all. apply Forall_map. apply Forall_forall.
        intros v _. now apply spec_cross_entropy_nonneg. }
      assert (Hden : 0 < INR (total_crops hp) - 1).
      { assert (2 <= INR (total_crops hp)); [|lra].
        change 2 with (INR 2). now apply le_INR. }
      apply Rmult_le_reg_r with (INR (total_crops hp) - 1); [exact Hden|].
      unfold Rdiv. rewrite Rmult_assoc, Rinv_l by lra. lra.
    - apply Forall_forall. trivial. }
  assert (Hn : 0 < INR (length (crops_for_assign hp))).
  { apply INR_pos. destruct (crops_for_assign hp); [congruence|simpl; lia]. }
  apply Rmult_le_reg_r with (INR (length (crops_for_assign hp))); [exact Hn|].
  unfold Rdiv. rewrite Rmult_assoc, Rinv_l by lra. lra.
Qed.

End LossSign.

Lemma shared_step_loss_is_nonnegative_witness :
  exists loss st',
    shared_step example_model None example_hp (example_state true) example_batch
      = Some (loss, st') /\ 0 <= loss.
Proof.
  assert (Hrun : exists r,
            shared_step example_model None example_hp (example_state true) example_batch
              = Some r) by (eexists; reflexivity).
  destruct Hrun as [[loss st'] Hrun]. exists loss, st'. split; [exact Hrun|].
  apply (shared_step_loss_is_nonnegative example_model example_hp 1 2 2)
    with (st := example_state true) (st' := st') (batch := example_batch);
    first [ exact Hrun
          | lia
          | simpl; lra
          | simpl; lia
          | reflexivity
          | split; [reflexivity | repeat constructor] ].
Defined.

(** ** Optimizer step: the learning rate follows the schedule *)

Lemma set_lr_loop_in_range sched step x groups :
  nth_error sched step = Some x ->
  set_lr_loop sched step groups = Some (map (set_group_lr x) groups).
Proof.
  intros Hx. induction groups as [|g rest IH]; simpl; [reflexivity|].
  now rewrite Hx, IH.
Qed.

Lemma set_lr_loop_out_of_range sched step g rest :
  nth_error sched step = None -> set_lr_loop sched step (g :: rest) = None.
Proof. intros Hx. simpl. now rewrite Hx. Qed.

Lemma on_train_epoch_start_schedule hp tr st st' :
  on_train_epoch_start hp tr st = Some st' ->
  exists sched, init_lr_schedule hp tr = Some sched /\ lr_schedule st' = Some sched.
Proof.
  intros H. unfold on_train_epoch_start in H. inv_bind H. rename a into sched.
  inv_bind H. rename a into st1. injection H as <-.
  exists sched. split; [exact Ha|]. simpl.
  destruct (0 <? queue_length hp)%nat; [|now injection Ha0 as <-].
  inv_bind Ha0.
  destruct (epoch_queue_starts hp <=? current_epoch tr)%Z; [|now injection Ha0 as <-].
  simpl in Ha0. destruct (queue st); [now injection Ha0 as <-|].
  destruct (_ =? 0)%nat; [discriminate|]. now injection Ha0 as <-.
Qed.

Lemma init_lr_schedule_length hp tr sched :
  init_lr_schedule hp tr = Some sched ->
  length sched =
    (Z.to_nat (num_training_batches tr * warmup_epochs hp) +
     Z.to_nat (num_training_batches tr * (max_epochs hp - warmup_epochs hp)))%nat.
Proof.
  intros H. apply init_lr_schedule_Some in H. destruct H as [_ ->].
  now rewrite length_app, !length_map, !length_seq.
Qed.

(** With the schedule that the epoch start has just generated (for
    [0 <= warmup_epochs <= max_epochs] and a non-negative number of batches
    per epoch), an optimizer step on a non-empty list of parameter groups
    goes through exactly while the global step is below
    [num_training_batches * max_epochs]: it then sets the ["lr"] of every
    group to that step's schedule value and touches nothing else; from that
    step on, indexing the schedule raises IndexError. *)
Theorem optimizer_step_follows_schedule
    (hp : hparams) (tr0 tr : trainer) (st0 st : swav) (g : param_group)
    (groups : list param_group) :
  on_train_epoch_start hp tr0 st0 = Some st ->
  (0 <= num_training_batches tr0)%Z ->
  (0 <= warmup_epochs hp <= max_epochs hp)%Z ->
  exists sched,
    lr_schedule st = Some sched /\
    ((Z.of_nat (global_step tr) < num_training_batches tr0 * max_epochs hp)%Z ->
       exists x, nth_error sched (global_step tr) = Some x /\
         optimizer_step st tr (g :: groups) = Some (map (set_group_lr x) (g :: groups))) /\
    ((num_training_batches tr0 * max_epochs hp <= Z.of_nat (global_step tr))%Z ->
       optimizer_step st tr (g :: groups) = None).
Proof.
  intros Hstart Hnb Hep.
  destruct (on_train_epoch_start_schedule _ _ _ _ Hstart) as (sched & Hinit & Hsched).
  pose proof (init_lr_schedule_length _ _ _ Hinit) as Hlen.
  assert (Hlen' : Z.of_nat (length sched) = (num_training_batches tr0 * max_epochs hp)%Z).
  { rewrite Hlen, Nat2Z.inj_add, !Z2Nat.id by nia. ring. }
  exists sched. split; [exact Hsched|]. split.
  - intros Hlt.
    destruct (nth_error sched (global_step tr)) as [x|] eqn:Hx.
    + exists x. split; [reflexivity|]. unfold optimizer_step. rewrite Hsched.
      cbn [bind]. now apply set_lr_loop_in_range.
    + apply nth_error_None in Hx. lia.
  - intros Hge. unfold optimizer_step. rewrite Hsched. cbn [bind].
    apply set_lr_loop_out_of_range. apply nth_error_None. lia.
Qed.

Lemma optimizer_step_follows_schedule_witness :
  let g := {| group_params := ["prototypes.weight"%string]; group_lr := 7;
              group_weight_decay := 0 |} in
  let st0 := set_queue None (example_state true) in
  exists st sched,
    on_train_epoch_start example_hp_no_queue example_trainer st0 = Some st /\
    lr_schedule st = Some sched /\
    optimizer_step st example_trainer [g]
      = Some [set_group_lr (start_lr example_hp_no_queue) g] /\
    optimizer_step st
      {| num_training_batches := 2; current_epoch := 3; global_step := 6; gpus := 1 |}
      [g] = None.
Proof.
  intros g st0.
  assert (Hstart : exists st,
            on_train_epoch_start example_hp_no_queue example_trainer st0 = Some st)
    by (eexists; reflexivity).
  destruct Hstart as [st Hstart].
  destruct (optimizer_step_follows_schedule example_hp_no_queue example_trainer
              example_trainer st0 st g [] Hstart) as (sched & Hs & Hin & _);
    [simpl; lia|simpl; lia|].
  destruct (optimizer_step_follows_schedule example_hp_no_queue example_trainer
              {| num_training_batches := 2; current_epoch := 3; global_step := 6; gpus := 1 |}
              st0 st g [] Hstart) as (sched' & Hs' & _ & Hout);
    [simpl; lia|simpl; lia|].
  exists st, sched. split; [exact Hstart|]. split; [exact Hs|]. split.
  - destruct Hin as (x & Hx & Hstep); [simpl; lia|]. rewrite Hstep. simpl.
    injection Hstart as <-. simpl in Hs. injection Hs as <-. simpl in Hx.
    injection Hx as <-. repeat f_equal. simpl. ring.
  - apply Hout. simpl. lia.
Defined.

(** ** Weight-decay groups *)

Lemma exclude_loop_filters skip_list named : forall params excluded,
  exclude_loop skip_list named params excluded =
    (params ++ map fst (filter (decayed skip_list) named),
     excluded ++ map fst (filter (undecayed skip_list) named)).
Proof.
  induction named as [|[name rg] rest IH]; intros params excluded; simpl.
  - now rewrite !app_nil_r.
  - unfold decayed, undecayed. simpl. destruct rg; simpl.
    + destruct (in_skip_list skip_list name); simpl; rewrite IH.
      * now rewrite <- app_assoc.
      * now rewrite <- app_assoc.
    + apply IH.
Qed.

Lemma filter_split_length {A} (f g : A -> bool) (h : A -> bool) (l : list A) :
  (forall x, h x = true -> (f x = true /\ g x = false) \/ (f x = false /\ g x = true)) ->
  (forall x, h x = false -> f x = false /\ g x = false) ->
  (length (filter f l) + length (filter g l))%nat = length (filter h l).
Proof.
  intros Ht Hf. induction l as [|x l IH]; simpl; [reflexivity|].
  destruct (h x) eqn:Hh.
  - destruct (Ht x Hh) as [[-> ->]|[-> ->]]; simpl; lia.
  - destruct (Hf x Hh) as [-> ->]. exact IH.
Qed.

(** [exclude_from_wt_decay] returns two groups: the first, with the given
    weight decay, holds exactly the trainable parameters whose name contains
    no entry of the skip list; the second, with weight decay 0, exactly the
    trainable parameters whose name contains one.  Parameters that do not
    require a gradient are in neither, and every trainable parameter is in
    one of the two. *)
Theorem exclude_from_wt_decay_partitions
    (named : list named_param) (weight_decay : R) (skip_list : list string) :
  exists params excluded,
    exclude_from_wt_decay named weight_decay skip_list =
      [(params, weight_decay); (excluded, 0)] /\
    (forall name, In name params <->
       In (name, true) named /\ in_skip_list skip_list name = false) /\
    (forall name, In name excluded <->
       In (name, true) named /\ in_skip_list skip_list name = true) /\
    (length params + length excluded)%nat =
       length (filter (fun np : named_param => snd np) named).
Proof.
  exists (map fst (filter (decayed skip_list) named)),
         (map fst (filter (undecayed skip_list) named)).
  split; [|split; [|split]].
  - unfold exclude_from_wt_decay. now rewrite exclude_loop_filters.
  - intros name. rewrite in_map_iff. split.
    + intros ([n rg] & <- & Hin). apply filter_In in Hin. destruct Hin as [Hin Hd].
      unfold decayed in Hd. simpl in *. apply andb_prop in Hd. destruct Hd as [-> Hs].
      split; [exact Hin|]. now apply negb_true_iff.
    + intros [Hin Hs]. exists (name, true). split; [reflexivity|].
      apply filter_In. split; [exact Hin|]. unfold decayed. simpl. now rewrite Hs.
  - intros name. rewrite in_map_iff. split.
    + intros ([n rg] & <- & Hin). apply filter_In in Hin. destruct Hin as [Hin Hd].
      unfold undecayed in Hd. simpl in *. apply andb_prop in Hd. destruct Hd as [-> Hs].
      now split.
    + intros [Hin Hs]. exists (name, true). split; [reflexivity|].
      apply filter_In. split; [exact Hin|]. unfold undecayed. simpl. now rewrite Hs.
  - rewrite !length_map. apply filter_split_length.
    + intros [n rg] H. simpl in H. subst rg. unfold decayed, undecayed. simpl.
      destruct (in_skip_list skip_list n); auto.
    + intros [n rg] H. simpl in H. subst rg. unfold decayed, undecayed. simpl. auto.
Qed.

(** ** Learning-rate schedule: bounds and monotonicity *)








(** ** Queue persistence *)

Lemma string_length_append (a b : string) :
  String.length (a ++ b) = (String.length a + String.length b)%nat.
Proof. induction a as [|c a IH]; simpl; [reflexivity|now rewrite IH]. Qed.

Lemma path_join_length_ge (a b : string) :
  (String.length b <= String.length (path_join a b))%nat.
Proof.
  unfold path_join. destruct (starts_with_sep b); [lia|].
  destruct (_ || _); rewrite !string_length_append; lia.
Qed.

Lemma path_join_file_length (folder : string) (rank : nat) :
  (String.length folder <
   String.length (path_join folder ("queue" ++ str rank ++ ".pth")))%nat.
Proof.
  unfold path_join. cbn [append starts_with_sep Ascii.eqb Bool.eqb].
  destruct (_ || _); rewrite !string_length_append; simpl; lia.
Qed.

(** Restart: when the queue is enabled, a module that is set up afresh with
    the same configured [queue_path], log directory and rank as the module
    that wrote the file at its last epoch end gets exactly the queue that
    was saved, whatever the files held before. *)
Theorem setup_reloads_saved_queue
    (hp : hparams) (log_dir : string) (rank : nat) (files : filesystem)
    (m m_end m_new : swav_files) (q : list mat) :
  (0 < queue_length hp)%nat ->
  queue_path m_end = queue_path (setup hp log_dir rank files m) ->
  queue (module m_end) = Some q ->
  queue_path m_new = queue_path m ->
  queue (module (setup hp log_dir rank (on_train_epoch_end_save files m_end) m_new))
    = Some q /\
  queue_path (setup hp log_dir rank (on_train_epoch_end_save files m_end) m_new)
    = queue_path m_end.
Proof.
  intros Hlen Hpath Hq Hnew.
  assert (Hp : queue_path m_end =
               path_join (path_join log_dir (queue_path m))
                         ("queue" ++ str rank ++ ".pth")).
  { rewrite Hpath. unfold setup. rewrite (proj2 (Nat.ltb_lt _ _) Hlen).
    cbv zeta. now destruct (files _). }
  unfold setup. rewrite (proj2 (Nat.ltb_lt _ _) Hlen). cbv zeta.
  rewrite Hnew, <- Hp. unfold on_train_epoch_end_save. rewrite Hq.
  unfold torch_save. rewrite String.eqb_refl. simpl. now split.
Qed.

Lemma setup_reloads_saved_queue_witness :
  let m0 := {| module := set_queue None (example_state true); queue_path := "queue" |} in
  let m_end := {| module := example_state true; queue_path := "logs/queue/queue0.pth" |} in
  queue (module (setup example_hp "logs" 0
                   (on_train_epoch_end_save (fun _ => None) m_end) m0))
    = Some [[[1; 0]]].
Proof.
  intros m0 m_end.
  apply (setup_reloads_saved_queue example_hp "logs" 0 (fun _ => None) m0 m_end m0);
    first [reflexivity | simpl; lia].
Defined.

(** [setup] overwrites [queue_path] with the path of the queue file, so it
    is not idempotent: with the queue enabled, a second call computes a
    strictly longer, hence different, path. *)
Theorem setup_twice_changes_queue_path
    (hp : hparams) (log_dir : string) (rank : nat) (files files' : filesystem)
    (m : swav_files) :
  (0 < queue_length hp)%nat ->
  let m1 := setup hp log_dir rank files m in
  let m2 := setup hp log_dir rank files' m1 in
  (String.length (queue_path m1) < String.length (queue_path m2))%nat /\
  queue_path m2 <> queue_path m1.
Proof.
  intros Hlen m1 m2.
  assert (H : (String.length (queue_path m1) < String.length (queue_path m2))%nat).
  { assert (Hp2 : queue_path m2 =
               path_join (path_join log_dir (queue_path m1))
                         ("queue" ++ str rank ++ ".pth")).
    { subst m2. unfold setup at 1. rewrite (proj2 (Nat.ltb_lt _ _) Hlen).
      cbv zeta. now destruct (files' _). }
    rewrite Hp2.
    pose proof (path_join_length_ge log_dir (queue_path m1)).
    pose proof (path_join_file_length (path_join log_dir (queue_path m1)) rank). lia. }
  split; [exact H|]. intros Heq. rewrite Heq in H. lia.
Qed.

Lemma setup_twice_changes_queue_path_witness :
  let m0 := {| module := set_queue None (example_state true); queue_path := "queue" |} in
  queue_path (setup example_hp "logs" 0 (fun _ => None) m0) = "logs/queue/queue0.pth"%string /\
  queue_path (setup example_hp "logs" 0 (fun _ => None)
                (setup example_hp "logs" 0 (fun _ => None) m0))
    <> queue_path (setup example_hp "logs" 0 (fun _ => None) m0).
Proof.
  intros m0. split; [reflexivity|].
  apply (setup_twice_changes_queue_path example_hp "logs" 0 (fun _ => None)
           (fun _ => None) m0). simpl. lia.
Defined.

(** ** Training step: the logged learning rate *)

Section TrainingStep.

Variable model : mat -> list mat -> mat * mat.
Variable dist : distributed.
Variable hp : hparams.

Lemma crops_loop_frame embedding output bs crops : forall i loss st loss' st',
  crops_loop dist hp embedding output bs crops i loss st = Some (loss', st') ->
  lr_schedule st' = lr_schedule st /\ named_grads st' = named_grads st.
Proof.
  induction crops as [|crop_id rest IH]; intros i loss st loss' st' H.
  - simpl in H. injection H as _ <-. now split.
  - apply crops_loop_step in H. destruct H as (q & st1 & vs & subloss & Hb & _ & _ & Hrest).
    apply IH in Hrest. destruct Hrest as [Hl Hg].
    apply assignment_block_inv in Hb. destruct Hb as [_ [out' Hb]].
    destruct (queue st) as [qu|] eqn:Hq.
    + destruct (use_queue_block_cases st i crop_id bs embedding _ out' st1 qu Hq Hb)
        as (use & slot & slot' & _ & _ & _ & _ & _ & Hl1 & Hg1 & _).
      split; congruence.
    + rewrite use_queue_block_no_queue in Hb by exact Hq. injection Hb as _ <-.
      now split.
Qed.

Lemma shared_step_frame st batch loss st' :
  shared_step model dist hp st batch = Some (loss, st') ->
  lr_schedule st' = lr_schedule st /\ named_grads st' = named_grads st.
Proof.
  intros H. apply shared_step_inv in H.
  destruct H as (x0 & loss1 & _ & _ & Hloop & _).
  apply crops_loop_frame in Hloop. exact Hloop.
Qed.

(** A shared step never touches the schedule or the gradients; and a
    training step returns exactly what its shared step returns provided the
    schedule has an entry at the trainer's global step: when the shared step
    goes through and the global step is past the end of the schedule, or no
    schedule was ever generated, the training step raises while logging the
    learning rate. *)
Theorem training_step_needs_schedule_entry
    (tr : trainer) (st : swav) (batch : list mat) (r : R * swav) :
  shared_step model dist hp st batch = Some r ->
  lr_schedule (snd r) = lr_schedule st /\
  named_grads (snd r) = named_grads st /\
  (forall sched, lr_schedule st = Some sched ->
     (global_step tr < length sched)%nat ->
     training_step model dist hp tr st batch = Some r) /\
  (forall sched, lr_schedule st = Some sched ->
     (length sched <= global_step tr)%nat ->
     training_step model dist hp tr st batch = None) /\
  (lr_schedule st = None -> training_step model dist hp tr st batch = None).
Proof.
  destruct r as [loss st']. intros H. simpl.
  destruct (shared_step_frame _ _ _ _ H) as [Hl Hg].
  split; [exact Hl|]. split; [exact Hg|].
  unfold training_step. rewrite H. cbn [bind]. rewrite Hl.
  split; [|split].
  - intros sched Hs Hlt. rewrite Hs. cbn [bind].
    destruct (nth_error sched (global_step tr)) eqn:Hn; [reflexivity|].
    apply nth_error_None in Hn. lia.
  - intros sched Hs Hge. rewrite Hs. cbn [bind].
    now rewrite (proj2 (nth_error_None sched (global_step tr)) Hge).
  - intros Hs. now rewrite Hs.
Qed.

(** A step on a module that holds a queue (restored by [setup]) but has not
    yet seen an epoch start raises: [use_the_queue] is first assigned by
    [on_train_epoch_start]. *)
Theorem shared_step_before_first_epoch_start_fails
    (st : swav) (batch : list mat) (qu : list mat) :
  queue st = Some qu -> use_the_queue st = None ->
  shared_step model dist hp st batch = None /\
  validation_step model dist hp st batch = None /\
  (forall tr, training_step model dist hp tr st batch = None).
Proof.
  intros Hq Hu.
  assert (H : shared_step model dist hp st batch = None).
  { destruct (shared_step model dist hp st batch) as [[loss st']|] eqn:E; [|reflexivity].
    exfalso. apply shared_step_inv in E.
    destruct E as (x0 & loss1 & _ & Hne & Hloop & _).
    destruct (crops_for_assign hp) as [|c cs]; [congruence|].
    apply crops_loop_step in Hloop.
    destruct Hloop as (q & st1 & vs & subloss & Hb & _).
    apply assignment_block_inv in Hb. destruct Hb as [_ [out' Hb]].
    unfold use_queue_block in Hb. simpl in Hb. rewrite Hq, Hu in Hb. discriminate. }
  split; [exact H|]. split; [exact H|].
  intros tr. unfold training_step. now rewrite H.
Qed.

End TrainingStep.

Lemma training_step_needs_schedule_entry_witness :
  exists r,
    shared_step example_model None example_hp (example_state true) example_batch = Some r /\
    training_step example_model None example_hp example_trainer (example_state true)
      example_batch = None.
Proof.
  assert (Hrun : exists r,
            shared_step example_model None example_hp (example_state true) example_batch
              = Some r) by (eexists; reflexivity).
  destruct Hrun as [r Hrun]. exists r. split; [exact Hrun|].
  destruct (training_step_needs_schedule_entry example_model None example_hp
              example_trainer (example_state true) example_batch r Hrun)
    as (_ & _ & _ & _ & Hnone).
  apply Hnone. reflexivity.
Defined.

Lemma shared_step_before_first_epoch_start_fails_witness :
  validation_step example_model None example_hp
    {| prototypes_weight := [[1; 0]; [0; 1]]; queue := Some [[[1; 0]]];
       use_the_queue := None; lr_schedule := None; named_grads := [] |}
    example_batch = None.
Proof.
  apply (shared_step_before_first_epoch_start_fails example_model None example_hp
           _ example_batch [[[1; 0]]]); reflexivity.
Defined.

(** ** Assignment engine: the shape of the output *)

(** With or without a process group (whose reductions keep the shape of
    their argument), for every K×B input with K >= 1, positive or not, and
    every iteration count, the assignment engine returns a B×K matrix. *)
Theorem distributed_sinkhorn_output_shape
    (K B : nat) (dist : distributed) (Q : mat) (N : nat) :
  (0 < K)%nat -> dist_ok K dist -> is_mat K B Q ->
  is_mat B K (Sinkhorn.distributed_sinkhorn dist Q N) /\
  length (Sinkhorn.distributed_sinkhorn dist Q N) = B.
Proof.
  intros HK Hd HM.
  pose proof (distributed_sinkhorn_is_mat K B dist Q N HK Hd HM) as H.
  split; [exact H|]. now destruct H.
Qed.

Lemma distributed_sinkhorn_output_shape_witness :
  let g := {| get_world_size := 2; remote_sum_Q := 3;
              remote_u := fun _ => [1 / 4; 1 / 4] |} in
  is_mat 3 2 (Sinkhorn.distributed_sinkhorn (Some g) [[1; 0; 2]; [0; 0; 1]] 2) /\
  length (Sinkhorn.distributed_sinkhorn (Some g) [[1; 0; 2]; [0; 0; 1]] 2) = 3%nat.
Proof.
  intros g. apply (distributed_sinkhorn_output_shape 2 3 (Some g)).
  - lia.
  - intros it. reflexivity.
  - split; [reflexivity|]. repeat constructor.
Defined.

(** ** Epoch start: the attribute [num_nodes] *)

(** With the queue enabled ([queue_length > 0]) the epoch start reads
    [self.num_nodes] on every call; when the module has no such attribute,
    which is how [__init__] leaves it, the hook raises, whatever the epoch,
    the trainer and the state of the module. *)
Theorem on_train_epoch_start_needs_num_nodes (hp : hparams) (tr : trainer) (st : swav) :
  (0 < queue_length hp)%nat -> num_nodes hp = None ->
  on_train_epoch_start hp tr st = None.
Proof.
  intros Hq Hn. unfold on_train_epoch_start.
  destruct (init_lr_schedule hp tr) as [sched|]; [|reflexivity].
  cbn [bind]. rewrite (proj2 (Nat.ltb_lt _ _) Hq), Hn. reflexivity.
Qed.

Lemma on_train_epoch_start_needs_num_nodes_witness :
  on_train_epoch_start example_hp example_trainer (example_state true) = None.
Proof.
  apply on_train_epoch_start_needs_num_nodes; [simpl; lia|reflexivity].
Defined.
